(** * The rocalution solver backend of the GPU bridge

    A shallow embedding of
    [opm/simulators/linalg/gpubridge/rocm/rocalutionSolverBackend.cpp]:
    the member functions [initialize], [convert_matrix], [get_result] and
    [solve_system] of [rocalutionSolverBackend<Scalar, block_size>], with
    the properties
    the specification states about them.

    The C++ objects the functions touch (the caller's [BlockedMatrix] and
    right-hand side, the backend object itself, the log and the calls made
    to the rocalution solver) live in one explicit [Heap]; every member
    function is a computation in a state-and-failure monad over it.
    Arrays are lists; a subscript outside an array is undefined behaviour
    and ends the computation in [Undefined]. *)

From Stdlib Require Import ZArith Lia.
From Stdlib Require Import Floats.PrimFloat.
From Stdlib Require Numbers.Cyclic.Int63.Uint63.
From stdpp Require Import base option list.

Local Open Scope Z_scope.

(** ** Machine numbers *)

(** [Scalar] is [double] (the instantiation [INSTANTIATE_TYPE(double)]):
    an IEEE 754 binary64 number. *)
Definition Scalar : Type := float.

Definition INT_MAX : Z := 2147483647.
Definition UINT_MOD : Z := 4294967296.

(** Arithmetic on [unsigned int] wraps around modulo 2^32; an [int]
    operand is converted to [unsigned int] first. *)
Definition to_unsigned (z : Z) : Z := z mod UINT_MOD.
Definition umul (a b : Z) : Z := (to_unsigned a * to_unsigned b) mod UINT_MOD.
Definition uadd (a b : Z) : Z := (to_unsigned a + to_unsigned b) mod UINT_MOD.

(** Conversion of an [unsigned int] to [int]. *)
Definition to_int (z : Z) : Z :=
  let u := to_unsigned z in if u <=? INT_MAX then u else u - UINT_MOD.

(** Conversion of an [int] to [double] (exact: 32 bits fit the mantissa). *)
Definition int_to_double (z : Z) : float :=
  if z <? 0 then PrimFloat.opp (PrimFloat.of_uint63 (Uint63.of_Z (- z)))
  else PrimFloat.of_uint63 (Uint63.of_Z z).

(** ** Outcomes of a C++ call *)

(** The exception this model raises: [std::bad_array_new_length], of a
    [new T[n]] with a negative [n].  Storage is taken to be granted:
    [std::bad_alloc], of [new] and [std::vector::resize] running out of
    memory, is outside the model, which therefore says nothing reliable of
    sizes no machine grants, such as the [2^32 - k] entries a negative [Nb]
    wraps to. *)
Inductive exception : Type :=
| bad_array_new_length.

Inductive Exec (A : Type) : Type :=
| Normal (a : A)
| Thrown (e : exception)
| Undefined.
Arguments Normal {A} a.
Arguments Thrown {A} e.
Arguments Undefined {A}.

(** ** Arrays *)

(** A cell of an array obtained from [new T[n]] holds an indeterminate
    value ([None]) until it is assigned. *)
Definition array (A : Type) : Type := list (option A).

(** The [n] cells [new T[n]] yields where the storage is granted. *)
Definition new_cells {A : Type} (n : Z) : array A := replicate (Z.to_nat n) None.

(** [a[i]] read from an initialised array. *)
Definition subscript {A : Type} (a : list A) (i : Z) : option A :=
  if i <? 0 then None else a !! Z.to_nat i.

(** [a[i] = v]. *)
Definition assign {A : Type} (a : array A) (i : Z) (v : A) : option (array A) :=
  if i <? 0 then None
  else if (Z.to_nat i <? length a)%nat then Some (<[Z.to_nat i := Some v]> a) else None.

(** [std::vector::resize], where the storage is granted: new elements are
    value-initialised. *)
Definition resize (n : Z) (v : list Scalar) : list Scalar :=
  take (Z.to_nat n) v ++ replicate (Z.to_nat n - length v)%nat 0%float.

(** ** The data the backend works on *)

Module BlockedMatrix.
(** The members of [BlockedMatrix<Scalar>] the backend reads. *)
Record t : Type := Build {
  Nb : Z;
  nnzbs : Z;
  rowPointers : list Z;
  colIndices : list Z;
  nnzValues : list Scalar
}.
End BlockedMatrix.

(** Modelled from the spec: the class [WellContributions] is declared
    outside the sources at hand.  Section 4.4 says of the contributions only
    that the backend applies them "additively to the matrix/right-hand-side";
    they are kept as one additive term per stored matrix value and one per
    right-hand-side entry. *)
Record WellContributions : Type := {
  well_values : list Scalar;
  well_rhs : list Scalar
}.

Record GpuResult : Type := {
  elapsed : float;
  iterations : Z;
  reduction : float;
  conv_rate : float;
  converged : bool
}.

Inductive SolverStatus : Type :=
| GPU_SOLVER_SUCCESS.

(** *** rocalution objects *)

(** What [LocalMatrix::SetDataPtrBCSR] takes over. *)
Record Mat : Type := {
  mat_row_offset : array Z;
  mat_col : array Z;
  mat_val : array Scalar;
  mat_nnzb : Z;
  mat_nrowb : Z;
  mat_ncolb : Z;
  mat_blockdim : Z
}.

(** The arguments of [roc_solver->Init]. *)
Record IterationControl : Type := {
  abs_tol : float;
  rel_tol : float;
  divergence_tol : float;
  max_iter : Z
}.

(** One invocation of [roc_solver->Solve] with what it was given. *)
Record SolveCall : Type := {
  call_control : IterationControl;
  call_operator : Mat;
  call_rhs : list Scalar;
  call_x0 : list Scalar
}.

(** What the solver object reports after [Solve]. *)
Record SolverRun : Type := {
  run_x : list Scalar;
  GetIterationCount : Z;
  GetCurrentResidual : float;
  GetSolverStatus : Z
}.

(** The values of [GetSolverStatus], as [solve_system] documents them. *)
Definition STATUS_NONE : Z := 0.
Definition STATUS_ABSOLUTE_TOLERANCE : Z := 1.
Definition STATUS_RELATIVE_TOLERANCE : Z := 2.
Definition STATUS_DIVERGENCE : Z := 3.
Definition STATUS_MAX_ITERATIONS : Z := 4.

(** The code outside the repository that [solve_system] calls: the
    rocalution library (its build-time constant [BCSR_IND_BASE], the vector
    norm, the preconditioned BiCGStab), the C library's [pow] and the
    timer.  The library is taken to return from [Solve] on whatever it is
    given.  A reading of the wall clock is no function of the system
    solved: [t_solve_stop] is given the calls of [Solve] made so far, the
    one timed last, so that two solves of one system may take different
    times. *)
Record Platform : Type := {
  BCSR_IND_BASE : Z;
  Norm : list Scalar -> float;
  Solve : SolveCall -> SolverRun;
  pow : float -> float -> float;
  t_solve_stop : list SolveCall -> float
}.

(** *** The backend object *)

Record Backend : Type := {
  verbosity : Z;
  maxit : Z;
  tolerance : Scalar;
  N : Z;
  Nb : Z;
  nnz : Z;
  nnzb : Z;
  initialized : bool;
  h_x : list Scalar;
  tmp_rowpointers : option (array Z);
  tmp_colindices : option (array Z);
  tmp_nnzvalues : option (array Scalar);
  roc_solver : IterationControl
}.

Inductive LogEntry : Type :=
| LogInitializing (Nb nnzb maxit : Z) (tolerance : Scalar)
| LogConvertMatrix
| LogGetResult
| LogSolve (res : GpuResult) (time_per_iteration : float).

(** The part of the store a solve call can reach. *)
Record Heap : Type := {
  matrix : BlockedMatrix.t;        (* the object [matrix] points to *)
  b : list Scalar;                 (* the array [b] points to *)
  this : Backend;
  solves : list SolveCall;         (* the calls of [roc_solver->Solve] so far *)
  OpmLog : list LogEntry
}.

Definition with_this (f : Backend -> Backend) (h : Heap) : Heap :=
  {| matrix := matrix h; b := b h; this := f (this h);
     solves := solves h; OpmLog := OpmLog h |}.

Definition with_solves (f : list SolveCall -> list SolveCall) (h : Heap) : Heap :=
  {| matrix := matrix h; b := b h; this := this h;
     solves := f (solves h); OpmLog := OpmLog h |}.

Definition with_OpmLog (f : list LogEntry -> list LogEntry) (h : Heap) : Heap :=
  {| matrix := matrix h; b := b h; this := this h;
     solves := solves h; OpmLog := f (OpmLog h) |}.

Definition set_dimensions (N' Nb' nnz' nnzb' : Z) (s : Backend) : Backend :=
  {| verbosity := verbosity s; maxit := maxit s; tolerance := tolerance s;
     N := N'; Nb := Nb'; nnz := nnz'; nnzb := nnzb';
     initialized := initialized s; h_x := h_x s;
     tmp_rowpointers := tmp_rowpointers s; tmp_colindices := tmp_colindices s;
     tmp_nnzvalues := tmp_nnzvalues s; roc_solver := roc_solver s |}.

Definition set_initialized (v : bool) (s : Backend) : Backend :=
  {| verbosity := verbosity s; maxit := maxit s; tolerance := tolerance s;
     N := N s; Nb := Nb s; nnz := nnz s; nnzb := nnzb s;
     initialized := v; h_x := h_x s;
     tmp_rowpointers := tmp_rowpointers s; tmp_colindices := tmp_colindices s;
     tmp_nnzvalues := tmp_nnzvalues s; roc_solver := roc_solver s |}.

Definition set_h_x (v : list Scalar) (s : Backend) : Backend :=
  {| verbosity := verbosity s; maxit := maxit s; tolerance := tolerance s;
     N := N s; Nb := Nb s; nnz := nnz s; nnzb := nnzb s;
     initialized := initialized s; h_x := v;
     tmp_rowpointers := tmp_rowpointers s; tmp_colindices := tmp_colindices s;
     tmp_nnzvalues := tmp_nnzvalues s; roc_solver := roc_solver s |}.

Definition set_tmp_rowpointers (v : option (array Z)) (s : Backend) : Backend :=
  {| verbosity := verbosity s; maxit := maxit s; tolerance := tolerance s;
     N := N s; Nb := Nb s; nnz := nnz s; nnzb := nnzb s;
     initialized := initialized s; h_x := h_x s;
     tmp_rowpointers := v; tmp_colindices := tmp_colindices s;
     tmp_nnzvalues := tmp_nnzvalues s; roc_solver := roc_solver s |}.

Definition set_tmp_colindices (v : option (array Z)) (s : Backend) : Backend :=
  {| verbosity := verbosity s; maxit := maxit s; tolerance := tolerance s;
     N := N s; Nb := Nb s; nnz := nnz s; nnzb := nnzb s;
     initialized := initialized s; h_x := h_x s;
     tmp_rowpointers := tmp_rowpointers s; tmp_colindices := v;
     tmp_nnzvalues := tmp_nnzvalues s; roc_solver := roc_solver s |}.

Definition set_tmp_nnzvalues (v : option (array Scalar)) (s : Backend) : Backend :=
  {| verbosity := verbosity s; maxit := maxit s; tolerance := tolerance s;
     N := N s; Nb := Nb s; nnz := nnz s; nnzb := nnzb s;
     initialized := initialized s; h_x := h_x s;
     tmp_rowpointers := tmp_rowpointers s; tmp_colindices := tmp_colindices s;
     tmp_nnzvalues := v; roc_solver := roc_solver s |}.

(** ** The monad of member functions *)

Definition M (A : Type) : Type := Heap -> Exec (A * Heap).

Definition ret {A : Type} (a : A) : M A := fun h => Normal (a, h).

Definition bind {A B : Type} (m : M A) (k : A -> M B) : M B :=
  fun h =>
    match m h with
    | Normal (a, h') => k a h'
    | Thrown e => Thrown e
    | Undefined => Undefined
    end.

#[global] Instance M_ret : MRet M := @ret.
#[global] Instance M_bind : MBind M := fun A B k m => bind m k.

Definition get : M Heap := fun h => Normal (h, h).
Definition modify (f : Heap -> Heap) : M unit := fun h => Normal (tt, f h).
Definition throw {A : Type} (e : exception) : M A := fun _ => Thrown e.
Definition undefined {A : Type} : M A := fun _ => Undefined.

(** An operation that is defined only where [o] is. *)
Definition defined {A : Type} (o : option A) : M A :=
  match o with Some a => ret a | None => undefined end.

(** [for (int i = lo; i < hi; ++i) body(i)], [count] iterations left. *)
Fixpoint iterate (count : nat) (i : Z) (body : Z -> M unit) : M unit :=
  match count with
  | O => ret tt
  | S count' => body i;; iterate count' (i + 1) body
  end.

Definition for_ (lo hi : Z) (body : Z -> M unit) : M unit :=
  iterate (Z.to_nat (hi - lo)) lo body.

(** [a + b] on [int]: signed overflow is undefined. *)
Definition int_add (a b : Z) : M Z :=
  if (a + b <=? INT_MAX) && (- INT_MAX - 1 <=? a + b) then ret (a + b) else undefined.

(** [new T[n]] for an [int] n: a negative length throws; any other is
    taken to be granted. *)
Definition new_array {A : Type} (n : Z) : M (array A) :=
  if n <? 0 then throw bad_array_new_length else ret (new_cells n).

Definition log (e : LogEntry) : M unit := modify (with_OpmLog (fun l => l ++ [e])).

(** ** The member functions *)

Section rocalutionSolverBackend.

(** The template parameter [block_size] and the platform the backend is
    built against. *)
Variable block_size : Z.
Variable P : Platform.

(** The constructor: [Base(verbosity_, maxit_, tolerance_)] and
    [roc_solver->Init(1e-15, tolerance, 1e3, maxit)] (the literal is the
    binary64 number nearest to 1e-15).  The members it
    leaves unset are given here as zero, empty and null; [solve_system]
    assigns each of them before it reads it. *)
Definition rocalutionSolverBackend (verbosity_ maxit_ : Z) (tolerance_ : Scalar)
  : Backend :=
  {| verbosity := verbosity_; maxit := maxit_; tolerance := tolerance_;
     N := 0; Nb := 0; nnz := 0; nnzb := 0;
     initialized := false; h_x := [];
     tmp_rowpointers := None; tmp_colindices := None; tmp_nnzvalues := None;
     roc_solver := {| abs_tol := 0x1.203af9ee75616p-50%float; rel_tol := tolerance_;
                      divergence_tol := 1e3%float; max_iter := maxit_ |} |}.

Definition initialize : M unit :=
  h ← get;
  let Nb' := BlockedMatrix.Nb (matrix h) in
  let nnzb' := BlockedMatrix.nnzbs (matrix h) in
  modify (with_this (set_dimensions
    (to_int (umul Nb' block_size)) Nb'
    (to_int (umul (umul nnzb' block_size) block_size)) nnzb'));;
  log (LogInitializing Nb' nnzb' (maxit (this h)) (tolerance (this h)));;
  modify (with_this (fun s => set_h_x (resize (umul Nb' block_size) (h_x s)) s));;
  modify (with_this (set_initialized true)).

(** [tmp_rowpointers[i] = matrix->rowPointers[i]] *)
Definition copy_rowPointer (i : Z) : M unit :=
  h ← get;
  v ← defined (subscript (BlockedMatrix.rowPointers (matrix h)) i);
  a ← defined (tmp_rowpointers (this h));
  a' ← defined (assign a i v);
  modify (with_this (set_tmp_rowpointers (Some a'))).

(** [tmp_colindices[i] = matrix->colIndices[i]] *)
Definition copy_colIndex (i : Z) : M unit :=
  h ← get;
  v ← defined (subscript (BlockedMatrix.colIndices (matrix h)) i);
  a ← defined (tmp_colindices (this h));
  a' ← defined (assign a i v);
  modify (with_this (set_tmp_colindices (Some a'))).

(** [tmp_nnzvalues[i * block_size * block_size + dst] =
     matrix->nnzValues[i * block_size * block_size + src]] *)
Definition copy_nnzValue (i dst src : Z) : M unit :=
  h ← get;
  v ← defined (subscript (BlockedMatrix.nnzValues (matrix h))
                 (uadd (umul (umul i block_size) block_size) src));
  a ← defined (tmp_nnzvalues (this h));
  a' ← defined (assign a (uadd (umul (umul i block_size) block_size) dst) v);
  modify (with_this (set_tmp_nnzvalues (Some a'))).

Definition convert_matrix : M unit :=
  h ← get;
  hi ← int_add (Nb (this h)) 1;
  for_ 0 hi copy_rowPointer;;
  for_ 0 (nnzb (this h)) copy_colIndex;;
  (if BCSR_IND_BASE P =? 0 then
     for_ 0 (nnzb (this h)) (fun i =>
       copy_nnzValue i 0 0;;
       copy_nnzValue i 1 3;;
       copy_nnzValue i 2 6;;
       copy_nnzValue i 3 1;;
       copy_nnzValue i 4 4;;
       copy_nnzValue i 5 7;;
       copy_nnzValue i 6 2;;
       copy_nnzValue i 7 5;;
       copy_nnzValue i 8 8)
   else ret tt);;
  (if 3 <=? verbosity (this h) then log LogConvertMatrix else ret tt).



(** [LocalMatrix::GetN] of a BCSR matrix: its number of scalar columns. *)
Definition GetN (m : Mat) : Z := mat_ncolb m * mat_blockdim m.

(** [LocalVector::CopyFromData]: reads as many entries as the vector has. *)
Definition CopyFromData (n : Z) (data : list Scalar) : M (list Scalar) :=
  if (Z.to_nat n <=? length data)%nat then ret (take (Z.to_nat n) data)
  else undefined.

(** [LocalVector::CopyToData]: writes every entry of the vector. *)
Definition CopyToData (x : list Scalar) (data : list Scalar) : M (list Scalar) :=
  if (length x <=? length data)%nat then ret (x ++ drop (length x) data)
  else undefined.

Definition solve_system (jacMatrix : option BlockedMatrix.t)
    (wellContribs : WellContributions) : M (SolverStatus * GpuResult) :=
  h ← get;
  (if initialized (this h) then ret tt else initialize);;

  h ← get;
  n_rows ← int_add (Nb (this h)) 1;
  rowpointers ← new_array n_rows;
  modify (with_this (set_tmp_rowpointers (Some rowpointers)));;
  colindices ← new_array (nnzb (this h));
  modify (with_this (set_tmp_colindices (Some colindices)));;
  modify (with_this (set_tmp_nnzvalues
    (Some (new_cells (umul (umul (nnzb (this h)) block_size) block_size)))));;

  convert_matrix;;

  (* SetDataPtrBCSR takes the three arrays and nulls the tmp_ pointers *)
  h ← get;
  row_offset ← defined (tmp_rowpointers (this h));
  col ← defined (tmp_colindices (this h));
  val ← defined (tmp_nnzvalues (this h));
  let roc_mat :=
    {| mat_row_offset := row_offset; mat_col := col; mat_val := val;
       mat_nnzb := nnzb (this h); mat_nrowb := Nb (this h);
       mat_ncolb := Nb (this h); mat_blockdim := block_size |} in
  modify (with_this (fun s =>
    set_tmp_nnzvalues None (set_tmp_colindices None (set_tmp_rowpointers None s))));;

  roc_rhs ← CopyFromData (GetN roc_mat) (b h);
  let roc_x := replicate (Z.to_nat (GetN roc_mat)) 0%float in
  let norm_0 := Norm P roc_rhs in

  let call :=
    {| call_control := roc_solver (this h); call_operator := roc_mat;
       call_rhs := roc_rhs; call_x0 := roc_x |} in
  modify (with_solves (fun l => l ++ [call]));;
  let run := Solve P call in

  let res_elapsed := t_solve_stop P (solves h ++ [call]) in
  let res_iterations := GetIterationCount run in
  let res_reduction := PrimFloat.div (GetCurrentResidual run) norm_0 in
  let res_conv_rate :=
    pow P res_reduction (PrimFloat.div 1%float (int_to_double res_iterations)) in
  let res_converged := GetSolverStatus run =? 2 in
  let res :=
    {| elapsed := res_elapsed; iterations := res_iterations;
       reduction := res_reduction; conv_rate := res_conv_rate;
       converged := res_converged |} in

  (* the solution vector keeps the size it was allocated with *)
  x ← CopyToData (resize (GetN roc_mat) (run_x run)) (h_x (this h));
  modify (with_this (set_h_x x));;

  (if 1 <=? verbosity (this h)
   then log (LogSolve res (PrimFloat.div res_elapsed (int_to_double res_iterations)))
   else ret tt);;

  ret (GPU_SOLVER_SUCCESS, res).

End rocalutionSolverBackend.

(** ** The loop bodies as array updates *)

(** What one pass of a copy loop does to the array it fills, given the
    array it reads: [None] where a subscript is out of range. *)
Definition copy_cell {A : Type} (src : list A) (i : Z) (a : array A)
  : option (array A) :=
  v ← subscript src i; assign a i v.

Definition block_offset (block_size i k : Z) : Z :=
  uadd (umul (umul i block_size) block_size) k.

Definition copy_value (block_size : Z) (src : list Scalar) (dst_k src_k i : Z)
    (a : array Scalar) : option (array Scalar) :=
  v ← subscript src (block_offset block_size i src_k);
  assign a (block_offset block_size i dst_k) v.

(** The nine assignments of the value loop, in program order. *)
Definition copy_block (block_size : Z) (src : list Scalar) (i : Z)
    (a : array Scalar) : option (array Scalar) :=
  a ← copy_value block_size src 0 0 i a;
  a ← copy_value block_size src 1 3 i a;
  a ← copy_value block_size src 2 6 i a;
  a ← copy_value block_size src 3 1 i a;
  a ← copy_value block_size src 4 4 i a;
  a ← copy_value block_size src 5 7 i a;
  a ← copy_value block_size src 6 2 i a;
  a ← copy_value block_size src 7 5 i a;
  copy_value block_size src 8 8 i a.

Fixpoint iterate_cells {A : Type} (count : nat) (i : Z)
    (step : Z -> array A -> option (array A)) (a : array A) : option (array A) :=
  match count with
  | O => Some a
  | S count' =>
      match step i a with
      | Some a' => iterate_cells count' (i + 1) step a'
      | None => None
      end
  end.

(** The offset inside a 3x3 block that the value loop reads for the
    destination offset [k]. *)
Definition source_offset (k : Z) : Z := 3 * (k mod 3) + k / 3.

(** Transposition inside blocks of any size [bs]: cell [j] of the result,
    at row [r] and column [c] of its block in column-major order
    ([j = q * bs * bs + c * bs + r]), holds the entry the caller stores at
    the row-major offset [q * bs * bs + r * bs + c]. *)
Definition transposed_index (bs j : Z) : Z :=
  let bb := bs * bs in
  (j / bb) * bb + bs * ((j mod bb) mod bs) + (j mod bb) / bs.

Definition transpose_blocks (bs n : Z) (vals : list Scalar) : array Scalar :=
  (fun j => subscript vals (transposed_index bs j)) <$> seqZ 0 n.

(** ** What a call leaves alone *)

(** [untouched h h']: the caller's matrix and right-hand side and the
    record of solver calls are the same in [h] and [h']. *)
Record untouched (h h' : Heap) : Prop := {
  untouched_matrix : matrix h' = matrix h;
  untouched_b : b h' = b h;
  untouched_solves : solves h' = solves h
}.

(** [stable R m]: every normal run of [m] relates the heap before to the
    heap after by [R]. *)
Definition stable {A : Type} (R : Heap -> Heap -> Prop) (m : M A) : Prop :=
  forall h a h', m h = Normal (a, h') -> R h h'.

(** ** Staging arrays as parts of the heap *)

(** A staging array is reached through a getter and a setter. *)
Record lens_ok {A : Type} (g : Heap -> option (array A))
    (s : array A -> Heap -> Heap) : Prop := {
  get_set : forall a h, g (s a h) = Some a;
  set_set : forall a a' h, s a' (s a h) = s a' h;
  set_get : forall a h, g h = Some a -> s a h = h;
  set_matrix : forall a h, matrix (s a h) = matrix h
}.

(** [body] does to the array behind [g], [s] what [step] says, reading the
    caller's matrix. *)
Definition acts_as {A : Type} (g : Heap -> option (array A))
    (s : array A -> Heap -> Heap) (body : Z -> M unit)
    (step : BlockedMatrix.t -> Z -> array A -> option (array A)) : Prop :=
  forall i h a, g h = Some a ->
    body i h = match step (matrix h) i a with
               | Some a' => Normal (tt, s a' h)
               | None => Undefined
               end.

Definition get_rowpointers (h : Heap) := tmp_rowpointers (this h).
Definition put_rowpointers (a : array Z) := with_this (set_tmp_rowpointers (Some a)).
Definition get_colindices (h : Heap) := tmp_colindices (this h).
Definition put_colindices (a : array Z) := with_this (set_tmp_colindices (Some a)).
Definition get_nnzvalues (h : Heap) := tmp_nnzvalues (this h).
Definition put_nnzvalues (a : array Scalar) := with_this (set_tmp_nnzvalues (Some a)).

(** ** The member functions in direct style *)

Definition log_if (c : bool) (e : LogEntry) (h : Heap) : Heap :=
  if c then with_OpmLog (fun l => l ++ [e]) h else h.

(** The heap [initialize] leaves. *)
Definition initialized_heap (block_size : Z) (h : Heap) : Heap :=
  let Nb' := BlockedMatrix.Nb (matrix h) in
  let nnzb' := BlockedMatrix.nnzbs (matrix h) in
  with_this (set_initialized true)
    (with_this (fun s => set_h_x (resize (umul Nb' block_size) (h_x s)) s)
       (with_OpmLog (fun l => l ++ [LogInitializing Nb' nnzb' (maxit (this h))
                                                     (tolerance (this h))])
          (with_this (set_dimensions
                        (to_int (umul Nb' block_size)) Nb'
                        (to_int (umul (umul nnzb' block_size) block_size)) nnzb')
             h))).

(** The heap after the three [new] expressions of [solve_system]. *)
Definition allocated_heap (block_size : Z) (h : Heap) : Heap :=
  put_nnzvalues (new_cells (umul (umul (nnzb (this h)) block_size) block_size))
    (put_colindices (new_cells (nnzb (this h)))
       (put_rowpointers (new_cells (Nb (this h) + 1)) h)).

(** The three loops of [convert_matrix] on the arrays they fill. *)
Definition convert_arrays (block_size base : Z) (m : BlockedMatrix.t)
    (Nb nnzb : Z) (rp ci : array Z) (vals : array Scalar)
  : option (array Z * array Z * array Scalar) :=
  rp' ← iterate_cells (Z.to_nat (Nb + 1 - 0)) 0
          (copy_cell (BlockedMatrix.rowPointers m)) rp;
  ci' ← iterate_cells (Z.to_nat (nnzb - 0)) 0
          (copy_cell (BlockedMatrix.colIndices m)) ci;
  vals' ← (if base =? 0
           then iterate_cells (Z.to_nat (nnzb - 0)) 0
                  (copy_block block_size (BlockedMatrix.nnzValues m)) vals
           else Some vals);
  Some (rp', ci', vals').

Definition int_range (z : Z) : bool := (z <=? INT_MAX) && (- INT_MAX - 1 <=? z).

(** What [solve_system] passes to [Solve], given the staged arrays. *)
Definition solve_call (block_size : Z) (h : Heap)
    (rp ci : array Z) (vals : array Scalar) : SolveCall :=
  let n := Nb (this h) * block_size in
  {| call_control := roc_solver (this h);
     call_operator :=
       {| mat_row_offset := rp; mat_col := ci; mat_val := vals;
          mat_nnzb := nnzb (this h); mat_nrowb := Nb (this h);
          mat_ncolb := Nb (this h); mat_blockdim := block_size |};
     call_rhs := take (Z.to_nat n) (b h);
     call_x0 := replicate (Z.to_nat n) 0%float |}.

(** What [solve_system] reports of a call of [Solve] made after the calls
    [earlier]. *)
Definition solve_result (P : Platform) (earlier : list SolveCall)
    (call : SolveCall) : GpuResult :=
  let run := Solve P call in
  let red := PrimFloat.div (GetCurrentResidual run) (Norm P (call_rhs call)) in
  {| elapsed := t_solve_stop P (earlier ++ [call]);
     iterations := GetIterationCount run;
     reduction := red;
     conv_rate :=
       pow P red (PrimFloat.div 1%float (int_to_double (GetIterationCount run)));
     converged := GetSolverStatus run =? 2 |}.

(** The heap [solve_system] leaves, from the heap [h1] it has after
    [initialize]. *)
Definition solved_heap (P : Platform) (call : SolveCall) (h1 : Heap) : Heap :=
  let res := solve_result P (solves h1) call in
  let n := GetN (call_operator call) in
  log_if (1 <=? verbosity (this h1))
    (LogSolve res (PrimFloat.div (elapsed res) (int_to_double (iterations res))))
    (with_this (set_h_x (resize n (run_x (Solve P call))
                          ++ drop (length (resize n (run_x (Solve P call))))
                                  (h_x (this h1))))
       (with_solves (fun l => l ++ [call])
          (log_if (3 <=? verbosity (this h1)) LogConvertMatrix
             (with_this (fun s =>
                set_tmp_nnzvalues None
                  (set_tmp_colindices None (set_tmp_rowpointers None s))) h1)))).

(** [solve_system] as one expression. *)
Definition solve_outcome (block_size : Z) (P : Platform) (h : Heap)
  : Exec (SolverStatus * GpuResult * Heap) :=
  let h1 := if initialized (this h) then h else initialized_heap block_size h in
  let Nb1 := Nb (this h1) in
  let nnzb1 := nnzb (this h1) in
  if negb (int_range (Nb1 + 1)) then Undefined
  else if Nb1 + 1 <? 0 then Thrown bad_array_new_length
  else if nnzb1 <? 0 then Thrown bad_array_new_length
  else
    match convert_arrays block_size (BCSR_IND_BASE P) (matrix h1) Nb1 nnzb1
            (new_cells (Nb1 + 1)) (new_cells nnzb1)
            (new_cells (umul (umul nnzb1 block_size) block_size)) with
    | None => Undefined
    | Some (rp, ci, vals) =>
        let call := solve_call block_size h1 rp ci vals in
        let n := Nb1 * block_size in
        if negb (Z.to_nat n <=? length (b h1))%nat then Undefined
        else if negb (length (resize n (run_x (Solve P call)))
                        <=? length (h_x (this h1)))%nat then Undefined
        else Normal (GPU_SOLVER_SUCCESS, solve_result P (solves h1) call,
                     solved_heap P call h1)
    end.

(** ** Preconditions of a solve call *)

(** The dimensions a solve call works with: those of the session once it is
    initialised, those of the matrix at hand before. *)
Definition session_Nb (h : Heap) : Z :=
  if initialized (this h) then Nb (this h) else BlockedMatrix.Nb (matrix h).

Definition session_nnzb (h : Heap) : Z :=
  if initialized (this h) then nnzb (this h) else BlockedMatrix.nnzbs (matrix h).

(** The arrays the caller passes are as long as the session's dimensions
    say, and the sizes fit the machine integers.  Nothing is asked of the
    contents of [rowPointers] and [colIndices]. *)
Record well_sized (block_size : Z) (P : Platform) (h : Heap) : Prop := {
  ws_block_size : 0 < block_size;
  ws_Nb : 0 <= session_Nb h < INT_MAX;
  ws_nnzb : 0 <= session_nnzb h <= INT_MAX;
  ws_N : session_Nb h * block_size < UINT_MOD;
  ws_rowPointers :
    session_Nb h + 1 <= Z.of_nat (length (BlockedMatrix.rowPointers (matrix h)));
  ws_colIndices :
    session_nnzb h <= Z.of_nat (length (BlockedMatrix.colIndices (matrix h)));
  ws_nnzValues :
    BCSR_IND_BASE P = 0 ->
    3 <= block_size /\
    session_nnzb h * block_size * block_size < UINT_MOD /\
    session_nnzb h * block_size * block_size
      <= Z.of_nat (length (BlockedMatrix.nnzValues (matrix h)));
  ws_b : session_Nb h * block_size <= Z.of_nat (length (b h));
  ws_h_x :
    initialized (this h) = true ->
    session_Nb h * block_size <= Z.of_nat (length (h_x (this h)))
}.

(** The heap [solve_system] has once [initialize] is behind it. *)
Definition session_heap (block_size : Z) (h : Heap) : Heap :=
  if initialized (this h) then h else initialized_heap block_size h.

(** The caller assembles the next system in place of the last one. *)
Definition assemble (m : BlockedMatrix.t) (rhs : list Scalar) (h : Heap) : Heap :=
  {| matrix := m; b := rhs; this := this h; solves := solves h; OpmLog := OpmLog h |}.

(** ** Sample data *)

(** The Euclidean norm, as [LocalVector::Norm] returns it. *)
Definition norm2 (v : list Scalar) : float :=
  PrimFloat.sqrt (fold_left (fun acc x => (acc + x * x)%float) v 0%float).

(** The values the C standard (Annex F.10.4.4) fixes for [pow] when the
    exponent is zero or infinite, the base is one, or an argument is not a
    number.  Elsewhere this sample answers NaN; no statement below
    evaluates it there. *)
Definition pow_special (x y : float) : float :=
  if (y =? 0)%float then 1%float
  else if (x =? 1)%float then 1%float
  else if PrimFloat.is_nan x || PrimFloat.is_nan y then PrimFloat.nan
  else if (y =? PrimFloat.infinity)%float then
    if (PrimFloat.abs x <? 1)%float then 0%float
    else if (PrimFloat.abs x =? 1)%float then 1%float
    else PrimFloat.infinity
  else if (y =? PrimFloat.neg_infinity)%float then
    if (PrimFloat.abs x <? 1)%float then PrimFloat.infinity
    else if (PrimFloat.abs x =? 1)%float then 1%float
    else 0%float
  else PrimFloat.nan.

(** A stand-in for the solver: it stops at once, with status 1, when the
    residual of the initial guess is within the absolute tolerance, and
    otherwise stops at the iteration limit, with status 4, without having
    improved the guess. *)
Definition sample_Solve (c : SolveCall) : SolverRun :=
  let r := norm2 (call_rhs c) in
  if (r <=? abs_tol (call_control c))%float then
    {| run_x := call_x0 c; GetIterationCount := 0;
       GetCurrentResidual := r; GetSolverStatus := STATUS_ABSOLUTE_TOLERANCE |}
  else
    {| run_x := call_x0 c; GetIterationCount := max_iter (call_control c);
       GetCurrentResidual := r; GetSolverStatus := STATUS_MAX_ITERATIONS |}.

Definition sample_platform (base : Z) : Platform :=
  {| BCSR_IND_BASE := base; Norm := norm2; Solve := sample_Solve;
     pow := pow_special; t_solve_stop := fun _ => 0%float |}.

Definition no_wells : WellContributions := {| well_values := []; well_rhs := [] |}.

(** A session before its first solve, with the system at hand. *)
Definition fresh_session (m : BlockedMatrix.t) (rhs : list Scalar) : Heap :=
  {| matrix := m; b := rhs;
     this := rocalutionSolverBackend 0 10 0x1p-7%float;
     solves := []; OpmLog := [] |}.

(** One 3x3 block. *)
Definition one_block : BlockedMatrix.t :=
  BlockedMatrix.Build 1 1 [0; 1] [0]
    [1; 2; 3; 4; 5; 6; 7; 8; 9]%float.

(** ** What is staged for the solver *)

(** The cells of the value array handed to the solver, for [nnzb] blocks
    read from [src]: under the column-major convention the first nine cells
    of every block hold the entries the 3x3 transposition selects and all
    other cells are as [new] left them; otherwise every cell is. *)
Definition staged_values (bs base nnzb : Z) (src : list Scalar)
    (vals : array Scalar) : Prop :=
  if base =? 0 then
    length vals = Z.to_nat (nnzb * bs * bs) /\
    (forall q k, 0 <= q < nnzb -> 0 <= k < 9 ->
       subscript vals (q * bs * bs + k)
         = Some <$> subscript src (q * bs * bs + source_offset k)) /\
    (forall j, 0 <= j ->
       (forall q k, 0 <= q < nnzb -> 0 <= k < 9 -> j <> q * bs * bs + k) ->
       subscript vals j = subscript (@new_cells Scalar (nnzb * bs * bs)) j)
  else vals = new_cells (umul (umul nnzb bs) bs).

(** Two systems for the one-block matrix: a zero right-hand side, whose
    initial residual is within the absolute tolerance, and a unit one. *)
Definition zero_rhs_session : Heap := fresh_session one_block [0; 0; 0]%float.
Definition unit_rhs_session : Heap := fresh_session one_block [1; 0; 0]%float.

(** ** The wording of the specification *)

(** Section 4.3, step 5: the solve has converged when the iteration ended
    on the relative or on the absolute tolerance. *)
Definition converged_as_specified (run : SolverRun) : bool :=
  (GetSolverStatus run =? STATUS_RELATIVE_TOLERANCE)
  || (GetSolverStatus run =? STATUS_ABSOLUTE_TOLERANCE).

(** Section 4.4: the system with the well contributions folded in, term by
    term, into the matrix values and the right-hand side. *)
Definition with_contributions (w : WellContributions) (h : Heap) : Heap :=
  let m := matrix h in
  assemble
    (BlockedMatrix.Build (BlockedMatrix.Nb m) (BlockedMatrix.nnzbs m)
       (BlockedMatrix.rowPointers m) (BlockedMatrix.colIndices m)
       (zip_with PrimFloat.add (BlockedMatrix.nnzValues m) (well_values w)))
    (zip_with PrimFloat.add (b h) (well_rhs w))
    h.

Definition unit_wells : WellContributions :=
  {| well_values := [1; 1; 1; 1; 1; 1; 1; 1; 1]%float; well_rhs := [1; 1; 1]%float |}.


(** Two block rows, three 3x3 blocks. *)
Definition three_blocks : BlockedMatrix.t :=
  BlockedMatrix.Build 2 3 [0; 2; 3] [0; 1; 1]
    [1; 2; 3; 4; 5; 6; 7; 8; 9;
     10; 11; 12; 13; 14; 15; 16; 17; 18;
     19; 20; 21; 22; 23; 24; 25; 26; 27]%float.

(** One block of each of the sizes 1, 2 and 4. *)
Definition one_block_1 : BlockedMatrix.t :=
  BlockedMatrix.Build 1 1 [0; 1] [0] [1]%float.

Definition one_block_2 : BlockedMatrix.t :=
  BlockedMatrix.Build 1 1 [0; 1] [0] [1; 2; 3; 4]%float.

Definition one_block_4 : BlockedMatrix.t :=
  BlockedMatrix.Build 1 1 [0; 1] [0]
    [0; 1; 2; 3; 4; 5; 6; 7; 8; 9; 10; 11; 12; 13; 14; 15]%float.


(** The second system of a session: three blocks after one. *)
Definition six_rhs : list Scalar := [1; 0; 0; 0; 0; 0]%float.

Definition block_1_session : Heap := fresh_session one_block_1 [0]%float.
Definition block_2_session : Heap := fresh_session one_block_2 [0; 0]%float.
Definition block_4_session : Heap := fresh_session one_block_4 [0; 0; 0; 0]%float.

(** ** The members [initialize] computes *)

(** [N], [nnz] and the size of [h_x] are what [initialize] computes from
    [Nb] and [nnzb], in [unsigned int] arithmetic. *)
Record coherent (block_size : Z) (s : Backend) : Prop := {
  coherent_N : N s = to_int (umul (Nb s) block_size);
  coherent_nnz : nnz s = to_int (umul (umul (nnzb s) block_size) block_size);
  coherent_h_x : length (h_x s) = Z.to_nat (umul (Nb s) block_size)
}.

(** The messages a solve call adds to the log, in order. *)
Definition solve_messages (h : Heap) (res : GpuResult) : list LogEntry :=
  (if initialized (this h) then []
   else [LogInitializing (BlockedMatrix.Nb (matrix h)) (BlockedMatrix.nnzbs (matrix h))
           (maxit (this h)) (tolerance (this h))])
  ++ (if 3 <=? verbosity (this h) then [LogConvertMatrix] else [])
  ++ (if 1 <=? verbosity (this h)
      then [LogSolve res (elapsed res / int_to_double (iterations res))%float]
      else []).

(** More sample data: a system without blocks, and one without rows. *)
Definition no_blocks : BlockedMatrix.t := BlockedMatrix.Build 1 0 [0; 0] [] [].
Definition no_blocks_session : Heap := fresh_session no_blocks [1]%float.

(** The matrix [m] with other values in its blocks. *)
Definition with_values (vals : list Scalar) (m : BlockedMatrix.t) : BlockedMatrix.t :=
  BlockedMatrix.Build (BlockedMatrix.Nb m) (BlockedMatrix.nnzbs m)
    (BlockedMatrix.rowPointers m) (BlockedMatrix.colIndices m) vals.

(** * Properties *)

(** ** Machine arithmetic *)

Lemma to_unsigned_small z : 0 <= z < UINT_MOD -> to_unsigned z = z.
Proof. intros Hz. unfold to_unsigned. now apply Z.mod_small. Qed.

Lemma umul_small x y :
  0 <= x -> 0 <= y -> x * y < UINT_MOD -> 0 < y -> umul x y = x * y.
Proof.
  intros Hx Hy Hxy Hpos. unfold umul.
  assert (x < UINT_MOD) by nia.
  assert (y < UINT_MOD \/ x = 0) as [Hys | ->] by nia.
  - rewrite !to_unsigned_small by lia. apply Z.mod_small. nia.
  - reflexivity.
Qed.

Lemma block_offset_small bs i k :
  0 < bs -> 0 <= i -> 0 <= k -> i * bs * bs + k < UINT_MOD ->
  block_offset bs i k = i * bs * bs + k.
Proof.
  intros Hbs Hi Hk Hlt. unfold block_offset.
  assert (0 <= i * bs) by nia.
  assert (i * bs <= i * bs * bs) by nia.
  rewrite (umul_small i bs) by nia.
  rewrite (umul_small (i * bs) bs) by nia.
  unfold uadd. rewrite !to_unsigned_small by nia.
  apply Z.mod_small. nia.
Qed.

Lemma to_int_small z : 0 <= z <= INT_MAX -> to_int z = z.
Proof.
  intros Hz. unfold to_int. unfold INT_MAX in *.
  rewrite to_unsigned_small by (unfold UINT_MOD; lia).
  destruct (Z.leb_spec z 2147483647); [reflexivity | lia].
Qed.

(** ** Running computations *)

Lemma run_bind {A B : Type} (m : M A) (k : A -> M B) h :
  (m ≫= k) h = match m h with
               | Normal (a, h') => k a h'
               | Thrown e => Thrown e
               | Undefined => Undefined
               end.
Proof. reflexivity. Qed.

Lemma bind_inv {A B : Type} (m : M A) (k : A -> M B) h r :
  (m ≫= k) h = Normal r ->
  exists a h1, m h = Normal (a, h1) /\ k a h1 = Normal r.
Proof.
  rewrite run_bind. destruct (m h) as [[a h1]| |]; try discriminate.
  intros E. exists a, h1. split; [reflexivity | exact E].
Qed.

Lemma defined_inv {A : Type} (o : option A) h a h' :
  defined o h = Normal (a, h') -> o = Some a /\ h' = h.
Proof.
  destruct o as [x|]; simpl; [|discriminate].
  unfold ret. intros [= -> ->]. split; reflexivity.
Qed.

(** ** Relations kept by every normal run *)

Section Stable.
Variable R : Heap -> Heap -> Prop.
Hypothesis R_refl : forall h, R h h.
Hypothesis R_trans : forall h1 h2 h3, R h1 h2 -> R h2 h3 -> R h1 h3.

Lemma stable_ret {A : Type} (a : A) : stable R (ret a).
Proof. intros h x h' [= _ <-]. apply R_refl. Qed.

Lemma stable_bind {A B : Type} (m : M A) (k : A -> M B) :
  stable R m -> (forall a, stable R (k a)) -> stable R (m ≫= k).
Proof.
  intros Hm Hk h x h' E. apply bind_inv in E as (a & h1 & E1 & E2).
  eapply R_trans; [eapply Hm | eapply Hk]; eassumption.
Qed.

Lemma stable_get : stable R get.
Proof. intros h x h' [= _ <-]. apply R_refl. Qed.

Lemma stable_modify (f : Heap -> Heap) :
  (forall h, R h (f h)) -> stable R (modify f).
Proof. intros Hf h x h' [= _ <-]. apply Hf. Qed.

Lemma stable_defined {A : Type} (o : option A) : stable R (defined o).
Proof. intros h x h' E. apply defined_inv in E as [_ ->]. apply R_refl. Qed.

Lemma stable_undefined {A : Type} : stable R (@undefined A).
Proof. intros h x h' E. discriminate E. Qed.

Lemma stable_if {A : Type} (c : bool) (m1 m2 : M A) :
  stable R m1 -> stable R m2 -> stable R (if c then m1 else m2).
Proof. destruct c; auto. Qed.

Lemma stable_int_add x y : stable R (int_add x y).
Proof. unfold int_add. apply stable_if; [apply stable_ret | apply stable_undefined]. Qed.

Lemma stable_iterate body :
  (forall i, stable R (body i)) -> forall n i, stable R (iterate n i body).
Proof.
  intros Hbody n. induction n as [|n IH]; intros i; simpl.
  - apply stable_ret.
  - apply stable_bind; [apply Hbody | intros _; apply IH].
Qed.

Lemma stable_for lo hi body :
  (forall i, stable R (body i)) -> stable R (for_ lo hi body).
Proof. intros Hbody. apply stable_iterate, Hbody. Qed.

End Stable.

(** ** The staging arrays *)

Ltac open_heap h :=
  let m := fresh "m" in let bb := fresh "rhs" in let s := fresh "s" in
  destruct h as [m bb s ? ?]; destruct s; simpl in *.

Ltac run :=
  unfold mbind, M_bind, bind, mret, M_ret, ret, get, modify, defined,
    undefined, throw; simpl.

Lemma rowpointers_lens : lens_ok get_rowpointers put_rowpointers.
Proof.
  split; intros; try reflexivity.
  open_heap h. unfold get_rowpointers in *. simpl in *. subst. reflexivity.
Qed.

Lemma colindices_lens : lens_ok get_colindices put_colindices.
Proof.
  split; intros; try reflexivity.
  open_heap h. unfold get_colindices in *. simpl in *. subst. reflexivity.
Qed.

Lemma nnzvalues_lens : lens_ok get_nnzvalues put_nnzvalues.
Proof.
  split; intros; try reflexivity.
  open_heap h. unfold get_nnzvalues in *. simpl in *. subst. reflexivity.
Qed.

Lemma copy_rowPointer_acts :
  acts_as get_rowpointers put_rowpointers copy_rowPointer
          (fun m => copy_cell (BlockedMatrix.rowPointers m)).
Proof.
  intros i h a Hg. unfold copy_rowPointer, copy_cell, get_rowpointers in *.
  run. rewrite Hg.
  destruct (subscript _ i) as [v|]; simpl; [|reflexivity].
  destruct (assign a i v) as [a'|]; reflexivity.
Qed.

Lemma copy_colIndex_acts :
  acts_as get_colindices put_colindices copy_colIndex
          (fun m => copy_cell (BlockedMatrix.colIndices m)).
Proof.
  intros i h a Hg. unfold copy_colIndex, copy_cell, get_colindices in *.
  run. rewrite Hg.
  destruct (subscript _ i) as [v|]; simpl; [|reflexivity].
  destruct (assign a i v) as [a'|]; reflexivity.
Qed.

Lemma copy_nnzValue_run bs dst_k src_k i h a :
  get_nnzvalues h = Some a ->
  copy_nnzValue bs i dst_k src_k h =
    match copy_value bs (BlockedMatrix.nnzValues (matrix h)) dst_k src_k i a with
    | Some a' => Normal (tt, put_nnzvalues a' h)
    | None => Undefined
    end.
Proof.
  intros Hg. unfold copy_nnzValue, copy_value, block_offset, get_nnzvalues in *.
  run. rewrite Hg.
  destruct (subscript _ _) as [v|]; simpl; [|reflexivity].
  destruct (assign a _ v) as [a'|]; reflexivity.
Qed.

(** One assignment of the nine-assignment body, after which the rest runs
    on the updated array. *)
Lemma copy_nnzValue_then bs dst_k src_k i h0 a (rest : M unit)
    (step : array Scalar -> option (array Scalar)) :
  (forall a1, rest (put_nnzvalues a1 h0) =
     match step a1 with
     | Some a' => Normal (tt, put_nnzvalues a' h0)
     | None => Undefined
     end) ->
  (copy_nnzValue bs i dst_k src_k;; rest) (put_nnzvalues a h0) =
    match copy_value bs (BlockedMatrix.nnzValues (matrix h0)) dst_k src_k i a
          ≫= step with
    | Some a' => Normal (tt, put_nnzvalues a' h0)
    | None => Undefined
    end.
Proof.
  intros Hrest.
  rewrite run_bind, (copy_nnzValue_run _ _ _ _ _ a) by reflexivity.
  change (matrix (put_nnzvalues a h0)) with (matrix h0).
  destruct (copy_value _ _ _ _ _ a) as [a1|]; simpl; [apply Hrest | reflexivity].
Qed.

Lemma copy_nnzValue_last bs dst_k src_k i h0 a :
  copy_nnzValue bs i dst_k src_k (put_nnzvalues a h0) =
    match copy_value bs (BlockedMatrix.nnzValues (matrix h0)) dst_k src_k i a with
    | Some a' => Normal (tt, put_nnzvalues a' h0)
    | None => Undefined
    end.
Proof. rewrite (copy_nnzValue_run _ _ _ _ _ a) by reflexivity. reflexivity. Qed.

Lemma copy_block_acts bs :
  acts_as get_nnzvalues put_nnzvalues
    (fun i =>
       copy_nnzValue bs i 0 0;; copy_nnzValue bs i 1 3;; copy_nnzValue bs i 2 6;;
       copy_nnzValue bs i 3 1;; copy_nnzValue bs i 4 4;; copy_nnzValue bs i 5 7;;
       copy_nnzValue bs i 6 2;; copy_nnzValue bs i 7 5;; copy_nnzValue bs i 8 8)
    (fun m => copy_block bs (BlockedMatrix.nnzValues m)).
Proof.
  intros i h a Hg. unfold copy_block.
  rewrite <- (set_get _ _ nnzvalues_lens a h Hg) at 1.
  repeat (apply copy_nnzValue_then; intros ?).
  apply copy_nnzValue_last.
Qed.

(** A loop whose body updates one staging array is the iterated update. *)
Lemma iterate_acts_as {A : Type} (g : Heap -> option (array A)) s body step :
  lens_ok g s -> acts_as g s body step ->
  forall n i h a, g h = Some a ->
    iterate n i body h =
      match iterate_cells n i (step (matrix h)) a with
      | Some a' => Normal (tt, s a' h)
      | None => Undefined
      end.
Proof.
  intros L Hacts n. induction n as [|n IH]; intros i h a Hg; simpl.
  - rewrite (set_get _ _ L a h Hg). reflexivity.
  - rewrite run_bind, (Hacts i h a Hg).
    destruct (step (matrix h) i a) as [a1|]; [|reflexivity].
    rewrite (IH (i + 1) (s a1 h) a1) by apply (get_set _ _ L).
    rewrite (set_matrix _ _ L).
    destruct (iterate_cells n (i + 1) (step (matrix h)) a1); [|reflexivity].
    rewrite (set_set _ _ L). reflexivity.
Qed.

(** ** Arrays *)

Lemma subscript_lookup {A : Type} (a : list A) j :
  0 <= j -> subscript a j = a !! Z.to_nat j.
Proof. intros Hj. unfold subscript. destruct (Z.ltb_spec j 0); [lia | reflexivity]. Qed.

Lemma subscript_is_Some {A : Type} (a : list A) j :
  0 <= j < Z.of_nat (length a) -> exists v, subscript a j = Some v.
Proof.
  intros Hj. rewrite subscript_lookup by lia.
  apply lookup_lt_is_Some. lia.
Qed.

Lemma subscript_beyond {A : Type} (a : list A) j :
  Z.of_nat (length a) <= j -> subscript a j = None.
Proof.
  intros Hj. rewrite subscript_lookup by lia. apply lookup_ge_None. lia.
Qed.

Lemma assign_ok {A : Type} (a : array A) j v :
  0 <= j < Z.of_nat (length a) ->
  assign a j v = Some (<[Z.to_nat j := Some v]> a).
Proof.
  intros Hj. unfold assign. destruct (Z.ltb_spec j 0); [lia|].
  destruct (Nat.ltb_spec (Z.to_nat j) (length a)); [reflexivity | lia].
Qed.

Lemma assign_length {A : Type} (a a' : array A) j v :
  assign a j v = Some a' -> length a' = length a.
Proof.
  unfold assign. destruct (j <? 0); [discriminate|].
  destruct (Z.to_nat j <? length a)%nat; [|discriminate].
  intros [= <-]. apply length_insert.
Qed.

Lemma subscript_insert {A : Type} (a : list A) i j v :
  0 <= i < Z.of_nat (length a) -> 0 <= j ->
  subscript (<[Z.to_nat i := v]> a) j =
    if decide (i = j) then Some v else subscript a j.
Proof.
  intros Hi Hj. rewrite !subscript_lookup by lia.
  destruct (decide (i = j)) as [->|Hne].
  - apply list_lookup_insert_eq. lia.
  - apply list_lookup_insert_ne. lia.
Qed.

Lemma new_cells_length {A : Type} n : 0 <= n -> Z.of_nat (length (@new_cells A n)) = n.
Proof. intros Hn. unfold new_cells. rewrite length_replicate. lia. Qed.

(** Two arrays with the same cells are the same array. *)
Lemma array_eq {A : Type} (a1 a2 : list A) :
  (forall j, 0 <= j -> subscript a1 j = subscript a2 j) -> a1 = a2.
Proof.
  intros H. apply list_eq. intros n.
  specialize (H (Z.of_nat n) ltac:(lia)).
  rewrite !subscript_lookup, Nat2Z.id in H by lia. exact H.
Qed.

(** ** The copy loops *)

Lemma copy_cell_ok {A : Type} (src : list A) i a :
  0 <= i < Z.of_nat (length src) -> i < Z.of_nat (length a) ->
  exists v, subscript src i = Some v /\
            copy_cell src i a = Some (<[Z.to_nat i := Some v]> a).
Proof.
  intros Hi Ha. destruct (subscript_is_Some src i Hi) as [v Hv].
  exists v. split; [exact Hv|]. unfold copy_cell. rewrite Hv. simpl.
  apply assign_ok. lia.
Qed.

Lemma iterate_copy_cell {A : Type} (src : list A) n :
  forall i a,
    0 <= i -> i + Z.of_nat n <= Z.of_nat (length src) ->
    i + Z.of_nat n <= Z.of_nat (length a) ->
    exists a',
      iterate_cells n i (copy_cell src) a = Some a' /\
      length a' = length a /\
      forall j, 0 <= j ->
        subscript a' j =
          if decide (i <= j < i + Z.of_nat n) then Some <$> subscript src j
          else subscript a j.
Proof.
  induction n as [|n IH]; intros i a Hi Hsrc Ha; simpl.
  - exists a. repeat split. intros j Hj. destruct (decide _); [lia | reflexivity].
  - destruct (copy_cell_ok src i a) as (v & Hv & ->); [lia | lia |].
    destruct (IH (i + 1) (<[Z.to_nat i := Some v]> a)) as (a' & -> & Hlen & Hcells);
      [lia | lia | rewrite length_insert; lia |].
    exists a'. split; [reflexivity|]. split; [now rewrite Hlen, length_insert|].
    intros j Hj. rewrite (Hcells j Hj).
    destruct (decide (i + 1 <= j < i + 1 + Z.of_nat n)) as [Hin|Hout].
    + destruct (decide _); [reflexivity | lia].
    + rewrite subscript_insert by lia.
      destruct (decide (i = j)) as [->|Hne].
      * destruct (decide _); [|lia]. now rewrite Hv.
      * destruct (decide _); [lia | reflexivity].
Qed.

(** A copy loop over [n] fresh cells yields the first [n] entries read. *)
Lemma copy_loop_fresh {A : Type} (src : list A) n :
  0 <= n <= Z.of_nat (length src) ->
  iterate_cells (Z.to_nat n) 0 (copy_cell src) (new_cells n)
    = Some (Some <$> take (Z.to_nat n) src).
Proof.
  intros Hn.
  destruct (iterate_copy_cell src (Z.to_nat n) 0 (new_cells n)) as (a' & -> & Hlen & Hcells);
    [lia | lia | rewrite new_cells_length; lia |].
  f_equal. apply array_eq. intros j Hj. rewrite (Hcells j Hj).
  rewrite (subscript_lookup (Some <$> _)) by lia.
  rewrite list_lookup_fmap, lookup_take.
  destruct (decide (0 <= j < 0 + Z.of_nat (Z.to_nat n))) as [Hin|Hout].
  - rewrite subscript_lookup by lia. destruct (decide _); [reflexivity | lia].
  - destruct (decide _); [lia|]. simpl.
    apply subscript_beyond. rewrite new_cells_length; lia.
Qed.

(** A copy loop that runs past the end of what it reads is undefined. *)
Lemma copy_loop_short {A : Type} (src : list A) n :
  forall i a, 0 <= i <= Z.of_nat (length src) ->
    i + Z.of_nat n <= Z.of_nat (length a) ->
    Z.of_nat (length src) < i + Z.of_nat n ->
    iterate_cells n i (copy_cell src) a = None.
Proof.
  induction n as [|n IH]; intros i a Hi Ha Hshort; simpl; [lia|].
  destruct (Z.lt_ge_cases i (Z.of_nat (length src))) as [Hin|Hout].
  - destruct (copy_cell_ok src i a) as (v & Hv & ->); [lia | lia |].
    apply IH; [lia | rewrite length_insert; lia | lia].
  - unfold copy_cell. now rewrite subscript_beyond.
Qed.

(** ** The value loop *)

Lemma copy_value_ok bs src dst_k src_k i a :
  0 < bs -> 0 <= i -> 0 <= dst_k <= 8 -> 0 <= src_k <= 8 ->
  i * bs * bs + 8 < UINT_MOD ->
  i * bs * bs + 8 < Z.of_nat (length src) ->
  i * bs * bs + 8 < Z.of_nat (length a) ->
  exists v,
    subscript src (i * bs * bs + src_k) = Some v /\
    copy_value bs src dst_k src_k i a
      = Some (<[Z.to_nat (i * bs * bs + dst_k) := Some v]> a).
Proof.
  intros Hbs Hi Hd Hs Hwrap Hsrc Ha.
  assert (0 <= i * bs * bs) by nia.
  destruct (subscript_is_Some src (i * bs * bs + src_k)) as [v Hv]; [lia|].
  exists v. split; [exact Hv|]. unfold copy_value.
  rewrite !block_offset_small by lia. rewrite Hv. simpl.
  apply assign_ok. lia.
Qed.

Ltac source_offset_value :=
  match goal with
  | |- context [source_offset ?k] =>
      let r := eval vm_compute in (source_offset k) in
      change (source_offset k) with r
  end.

Lemma copy_block_ok bs src i a :
  0 < bs -> 0 <= i ->
  i * bs * bs + 8 < UINT_MOD ->
  i * bs * bs + 8 < Z.of_nat (length src) ->
  i * bs * bs + 8 < Z.of_nat (length a) ->
  exists a',
    copy_block bs src i a = Some a' /\
    length a' = length a /\
    forall j, 0 <= j ->
      subscript a' j =
        if decide (i * bs * bs <= j < i * bs * bs + 9)
        then Some <$> subscript src (i * bs * bs + source_offset (j - i * bs * bs))
        else subscript a j.
Proof.
  intros Hbs Hi Hwrap Hsrc Ha. unfold copy_block.
  assert (Hbase : 0 <= i * bs * bs) by nia.
  destruct (copy_value_ok bs src 0 0 i a) as (v0 & H0 & ->); try lia. simpl.
  destruct (copy_value_ok bs src 1 3 i (<[Z.to_nat (i * bs * bs + 0) := Some v0]> a))
    as (v1 & H1 & ->); rewrite ?length_insert; try lia. simpl.
  match goal with |- context [copy_value bs src 2 6 i ?x] =>
    destruct (copy_value_ok bs src 2 6 i x) as (v2 & H2 & ->) end;
    rewrite ?length_insert; try lia. simpl.
  match goal with |- context [copy_value bs src 3 1 i ?x] =>
    destruct (copy_value_ok bs src 3 1 i x) as (v3 & H3 & ->) end;
    rewrite ?length_insert; try lia. simpl.
  match goal with |- context [copy_value bs src 4 4 i ?x] =>
    destruct (copy_value_ok bs src 4 4 i x) as (v4 & H4 & ->) end;
    rewrite ?length_insert; try lia. simpl.
  match goal with |- context [copy_value bs src 5 7 i ?x] =>
    destruct (copy_value_ok bs src 5 7 i x) as (v5 & H5 & ->) end;
    rewrite ?length_insert; try lia. simpl.
  match goal with |- context [copy_value bs src 6 2 i ?x] =>
    destruct (copy_value_ok bs src 6 2 i x) as (v6 & H6 & ->) end;
    rewrite ?length_insert; try lia. simpl.
  match goal with |- context [copy_value bs src 7 5 i ?x] =>
    destruct (copy_value_ok bs src 7 5 i x) as (v7 & H7 & ->) end;
    rewrite ?length_insert; try lia. simpl.
  match goal with |- context [copy_value bs src 8 8 i ?x] =>
    destruct (copy_value_ok bs src 8 8 i x) as (v8 & H8 & ->) end;
    rewrite ?length_insert; try lia.
  eexists. split; [reflexivity|]. split; [now rewrite !length_insert|].
  remember (i * bs * bs) as base eqn:Ebase.
  intros j Hj.
  rewrite !subscript_insert by (rewrite ?length_insert; lia).
  destruct (decide (base <= j < base + 9)) as [Hin|Hout].
  - assert (j = base + 0 \/ j = base + 1 \/ j = base + 2 \/ j = base + 3 \/
            j = base + 4 \/ j = base + 5 \/ j = base + 6 \/ j = base + 7 \/
            j = base + 8) as Hcase by lia.
    repeat (destruct Hcase as [-> | Hcase]); [ .. | subst j];
      repeat (destruct (decide _) as [?|?]; try lia);
      match goal with |- context [source_offset ?e] =>
        match e with base + ?k - base => replace e with k by lia end end;
      source_offset_value;
      match goal with H : subscript src ?e = Some _ |- context [subscript src ?e] =>
        rewrite H end; reflexivity.
  - repeat (destruct (decide _) as [?|?]; try lia). reflexivity.
Qed.

Lemma block_start_mono bs q q' :
  3 <= bs -> 0 <= q -> q + 1 <= q' -> q * bs * bs + 9 <= q' * bs * bs.
Proof. intros Hbs Hq Hlt. nia. Qed.

(** The value loop over blocks [i .. i + n - 1], for blocks of at least
    3x3 scalars: the first nine cells of every block are assigned, from the
    offsets of the 3x3 transposition; every other cell is left as it was. *)
Lemma iterate_copy_block bs src n :
  forall i a,
    3 <= bs -> 0 <= i ->
    (i + Z.of_nat n) * bs * bs < UINT_MOD ->
    (i + Z.of_nat n) * bs * bs <= Z.of_nat (length src) ->
    (i + Z.of_nat n) * bs * bs <= Z.of_nat (length a) ->
    exists a',
      iterate_cells n i (copy_block bs src) a = Some a' /\
      length a' = length a /\
      (forall q k, i <= q < i + Z.of_nat n -> 0 <= k < 9 ->
         subscript a' (q * bs * bs + k)
           = Some <$> subscript src (q * bs * bs + source_offset k)) /\
      (forall j, 0 <= j ->
         (forall q k, i <= q < i + Z.of_nat n -> 0 <= k < 9 -> j <> q * bs * bs + k) ->
         subscript a' j = subscript a j).
Proof.
  induction n as [|n IH]; intros i a Hbs Hi Hwrap Hsrc Ha; simpl.
  - exists a. split; [reflexivity|]. split; [reflexivity|].
    split; intros; [lia | reflexivity].
  - assert (Hnext : i * bs * bs + 9 <= (i + Z.of_nat (S n)) * bs * bs)
      by (apply block_start_mono; lia).
    assert (Hbase : 0 <= i * bs * bs) by nia.
    destruct (copy_block_ok bs src i a) as (a1 & -> & Hlen1 & Hcells1); try lia.
    destruct (IH (i + 1) a1) as (a' & -> & Hlen & Hin & Hout); try lia;
      try (replace (i + 1 + Z.of_nat n) with (i + Z.of_nat (S n)) by lia; lia).
    exists a'. split; [reflexivity|]. split; [congruence|]. split.
    + intros q k Hq Hk.
      destruct (decide (q = i)) as [->|Hne].
      * rewrite Hout, Hcells1 by
          (try nia; intros q' k' Hq' Hk';
           pose proof (block_start_mono bs i q' ltac:(lia) ltac:(lia) ltac:(lia)); lia).
        destruct (decide _) as [_|?]; [|lia].
        now replace (i * bs * bs + k - i * bs * bs) with k by lia.
      * apply Hin; lia.
    + intros j Hj Hfree.
      rewrite Hout, Hcells1 by (try lia; intros q' k' Hq' Hk'; apply Hfree; lia).
      destruct (decide _) as [Hblock|_]; [|reflexivity].
      exfalso. apply (Hfree i (j - i * bs * bs)); lia.
Qed.

(** ** [convert_matrix] and [solve_system] in direct style *)

Lemma int_add_run x y h :
  int_add x y h = if int_range (x + y) then Normal (x + y, h) else Undefined.
Proof. unfold int_add, int_range. destruct (_ && _); reflexivity. Qed.

Lemma log_if_this c e h : this (log_if c e h) = this h.
Proof. destruct c; reflexivity. Qed.

Lemma log_if_matrix c e h : matrix (log_if c e h) = matrix h.
Proof. destruct c; reflexivity. Qed.

Lemma log_if_b c e h : b (log_if c e h) = b h.
Proof. destruct c; reflexivity. Qed.

Lemma log_if_solves c e h : solves (log_if c e h) = solves h.
Proof. destruct c; reflexivity. Qed.

Lemma log_if_run (c : bool) e h :
  (if c then log e else ret tt) h = Normal (tt, log_if c e h).
Proof. destruct c; reflexivity. Qed.

Lemma convert_matrix_run bs P h rp ci vals :
  get_rowpointers h = Some rp ->
  get_colindices h = Some ci ->
  get_nnzvalues h = Some vals ->
  int_range (Nb (this h) + 1) = true ->
  convert_matrix bs P h =
    match convert_arrays bs (BCSR_IND_BASE P) (matrix h)
            (Nb (this h)) (nnzb (this h)) rp ci vals with
    | Some (rp', ci', vals') =>
        Normal (tt, log_if (3 <=? verbosity (this h)) LogConvertMatrix
                      (put_nnzvalues vals' (put_colindices ci' (put_rowpointers rp' h))))
    | None => Undefined
    end.
Proof.
  intros Hrp Hci Hvals Hrange.
  unfold convert_matrix, convert_arrays, for_.
  rewrite run_bind. change (get h) with (Normal (h, h)). cbv beta iota.
  rewrite run_bind, int_add_run, Hrange.
  rewrite run_bind,
    (iterate_acts_as get_rowpointers put_rowpointers _ _
       rowpointers_lens copy_rowPointer_acts _ _ h rp Hrp).
  destruct (iterate_cells _ 0 (copy_cell (BlockedMatrix.rowPointers _)) rp)
    as [rp'|]; [|reflexivity].
  cbn [mbind option_bind].
  rewrite run_bind,
    (iterate_acts_as get_colindices put_colindices _ _
       colindices_lens copy_colIndex_acts _ _ (put_rowpointers rp' h) ci Hci).
  change (matrix (put_rowpointers rp' h)) with (matrix h).
  destruct (iterate_cells _ 0 (copy_cell (BlockedMatrix.colIndices _)) ci)
    as [ci'|]; [|reflexivity].
  cbn [mbind option_bind].
  rewrite run_bind.
  destruct (BCSR_IND_BASE P =? 0).
  - rewrite (iterate_acts_as get_nnzvalues put_nnzvalues _ _
               nnzvalues_lens (copy_block_acts bs) _ _
               (put_colindices ci' (put_rowpointers rp' h)) vals Hvals).
    change (matrix (put_colindices ci' (put_rowpointers rp' h))) with (matrix h).
    destruct (iterate_cells _ 0 (copy_block bs _) vals) as [vals'|]; [|reflexivity].
    cbn [mbind option_bind]. apply log_if_run.
  - cbn [mbind option_bind].
    change (ret tt (put_colindices ci' (put_rowpointers rp' h)))
      with (Normal (tt, put_colindices ci' (put_rowpointers rp' h))).
    cbv beta iota.
    rewrite <- (set_get _ _ nnzvalues_lens vals
                  (put_colindices ci' (put_rowpointers rp' h)) Hvals) at 1.
    apply log_if_run.
Qed.

Lemma initialize_run bs h : initialize bs h = Normal (tt, initialized_heap bs h).
Proof. reflexivity. Qed.

Lemma new_array_run {A : Type} n h :
  @new_array A n h = if n <? 0 then Thrown bad_array_new_length
                     else Normal (new_cells n, h).
Proof. unfold new_array. destruct (n <? 0); reflexivity. Qed.

Lemma modify_run f h : modify f h = Normal (tt, f h).
Proof. reflexivity. Qed.

Lemma defined_run {A : Type} (a : A) h : defined (Some a) h = Normal (a, h).
Proof. reflexivity. Qed.

Lemma get_run h : get h = Normal (h, h).
Proof. reflexivity. Qed.

Lemma CopyFromData_run n data h :
  CopyFromData n data h =
    if negb (Z.to_nat n <=? length data)%nat then Undefined
    else Normal (take (Z.to_nat n) data, h).
Proof. unfold CopyFromData. destruct (_ <=? _)%nat; reflexivity. Qed.

Lemma CopyToData_run x data h :
  CopyToData x data h =
    if negb (length x <=? length data)%nat then Undefined
    else Normal (x ++ drop (length x) data, h).
Proof. unfold CopyToData. destruct (_ <=? _)%nat; reflexivity. Qed.

Lemma solve_system_outcome bs P jacMatrix wellContribs h :
  solve_system bs P jacMatrix wellContribs h = solve_outcome bs P h.
Proof.
  unfold solve_system, solve_outcome.
  rewrite run_bind, get_run. cbv beta iota.
  rewrite run_bind.
  assert (Hinit : (if initialized (this h) then ret tt else initialize bs) h
                  = Normal (tt, if initialized (this h) then h
                                else initialized_heap bs h))
    by (destruct (initialized (this h)); reflexivity).
  rewrite Hinit. clear Hinit.
  generalize (if initialized (this h) then h else initialized_heap bs h).
  clear h. intros h. cbv beta iota zeta.
  rewrite run_bind, get_run. cbv beta iota.
  rewrite run_bind, int_add_run.
  destruct (int_range (Nb (this h) + 1)) eqn:Hrange; [|reflexivity].
  cbv beta iota. rewrite run_bind, new_array_run.
  destruct (Nb (this h) + 1 <? 0); [reflexivity|]. cbv beta iota.
  cbn [negb].
  rewrite run_bind, modify_run. cbv beta iota.
  rewrite run_bind, new_array_run.
  change (nnzb (this (with_this _ h))) with (nnzb (this h)).
  destruct (nnzb (this h) <? 0); [reflexivity|]. cbv beta iota.
  rewrite run_bind, modify_run. cbv beta iota.
  rewrite run_bind, modify_run. cbv beta iota.
  rewrite run_bind.
  match goal with |- context [convert_matrix bs P ?x] =>
    change x with (allocated_heap bs h) end.
  rewrite (convert_matrix_run bs P (allocated_heap bs h) _ _ _
             eq_refl eq_refl eq_refl Hrange).
  change (matrix (allocated_heap bs h)) with (matrix h).
  change (Nb (this (allocated_heap bs h))) with (Nb (this h)).
  change (nnzb (this (allocated_heap bs h))) with (nnzb (this h)).
  change (verbosity (this (allocated_heap bs h))) with (verbosity (this h)).
  destruct (convert_arrays _ _ _ _ _ _ _ _) as [[[rp ci] vals]|]; [|reflexivity].
  cbv beta iota.
  rewrite run_bind, get_run. cbv beta iota.
  rewrite !log_if_this, log_if_b.
  cbn [this b allocated_heap put_nnzvalues put_colindices put_rowpointers with_this
       set_tmp_nnzvalues set_tmp_colindices set_tmp_rowpointers
       tmp_rowpointers tmp_colindices tmp_nnzvalues nnzb Nb roc_solver verbosity h_x].
  rewrite run_bind, defined_run. cbv beta iota.
  rewrite run_bind, defined_run. cbv beta iota.
  rewrite run_bind, defined_run. cbv beta iota.
  rewrite run_bind, modify_run. cbv beta iota.
  unfold GetN. cbn [mat_ncolb mat_blockdim].
  rewrite run_bind, CopyFromData_run.
  destruct (negb (Z.to_nat (Nb (this h) * bs) <=? length (b h))%nat); [reflexivity|].
  cbv beta iota.
  match goal with |- context [Solve P ?c] =>
    change c with (solve_call bs h rp ci vals) end.
  rewrite run_bind, modify_run. cbv beta iota.
  rewrite run_bind, CopyToData_run.
  destruct (negb (length (resize _ _) <=? length (h_x (this h)))%nat); [reflexivity|].
  cbv beta iota.
  rewrite run_bind, modify_run. cbv beta iota.
  rewrite run_bind, log_if_run. cbv beta iota.
  unfold ret, solve_result, solved_heap, GetN.
  destruct (1 <=? verbosity (this h)), (3 <=? verbosity (this h));
    destruct h as [? ? [] ? ?]; reflexivity.
Qed.

(** ** The staged arrays *)

Lemma iterate_cells_length {A : Type} (step : Z -> array A -> option (array A)) :
  (forall i a a', step i a = Some a' -> length a' = length a) ->
  forall n i a a', iterate_cells n i step a = Some a' -> length a' = length a.
Proof.
  intros Hstep n. induction n as [|n IH]; intros i a a'; simpl.
  - now intros [= <-].
  - destruct (step i a) as [a1|] eqn:E1; [|discriminate].
    intros E. rewrite (IH _ _ _ E). eapply Hstep, E1.
Qed.

Lemma copy_cell_length {A : Type} (src : list A) i a a' :
  copy_cell src i a = Some a' -> length a' = length a.
Proof.
  unfold copy_cell. destruct (subscript src i) as [v|]; simpl; [|discriminate].
  apply assign_length.
Qed.

Lemma copy_value_length bs src dst_k src_k i a a' :
  copy_value bs src dst_k src_k i a = Some a' -> length a' = length a.
Proof.
  unfold copy_value. destruct (subscript src _) as [v|]; simpl; [|discriminate].
  apply assign_length.
Qed.

Lemma copy_block_length bs src i a a' :
  copy_block bs src i a = Some a' -> length a' = length a.
Proof.
  unfold copy_block. intros E.
  repeat match type of E with
  | (copy_value ?bs ?src ?d ?s ?i ?x ≫= _) = Some _ =>
      let a1 := fresh "a" in let E1 := fresh "E" in
      destruct (copy_value bs src d s i x) as [a1|] eqn:E1; [|discriminate E];
      apply copy_value_length in E1; cbn [mbind option_bind] in E
  end.
  apply copy_value_length in E. congruence.
Qed.

(** The lengths of the staged arrays are those of the arrays allocated. *)
Lemma convert_arrays_length bs base m Nb nnzb rp ci vals rp' ci' vals' :
  convert_arrays bs base m Nb nnzb rp ci vals = Some (rp', ci', vals') ->
  length rp' = length rp /\ length ci' = length ci /\ length vals' = length vals.
Proof.
  unfold convert_arrays. intros E.
  destruct (iterate_cells _ 0 (copy_cell (BlockedMatrix.rowPointers m)) rp)
    as [rp1|] eqn:Erp; [|discriminate]. cbn [mbind option_bind] in E.
  destruct (iterate_cells _ 0 (copy_cell (BlockedMatrix.colIndices m)) ci)
    as [ci1|] eqn:Eci; [|discriminate]. cbn [mbind option_bind] in E.
  apply (iterate_cells_length _ (copy_cell_length _)) in Erp.
  apply (iterate_cells_length _ (copy_cell_length _)) in Eci.
  destruct (base =? 0).
  - destruct (iterate_cells _ 0 (copy_block bs _) vals) as [v1|] eqn:Ev;
      [|discriminate]. cbn [mbind option_bind] in E.
    apply (iterate_cells_length _ (copy_block_length bs _)) in Ev.
    injection E as <- <- <-. auto.
  - cbn [mbind option_bind] in E. injection E as <- <- <-. auto.
Qed.

(** With arrays as long as the dimensions say, the loops run through, and
    row pointers and column indices are staged as they are. *)
Lemma convert_arrays_ok bs base m Nb nnzb :
  0 <= Nb -> 0 <= nnzb ->
  Nb + 1 <= Z.of_nat (length (BlockedMatrix.rowPointers m)) ->
  nnzb <= Z.of_nat (length (BlockedMatrix.colIndices m)) ->
  (base = 0 ->
   3 <= bs /\ nnzb * bs * bs < UINT_MOD /\
   nnzb * bs * bs <= Z.of_nat (length (BlockedMatrix.nnzValues m))) ->
  exists vals,
    convert_arrays bs base m Nb nnzb (new_cells (Nb + 1)) (new_cells nnzb)
      (new_cells (umul (umul nnzb bs) bs))
    = Some (Some <$> take (Z.to_nat (Nb + 1)) (BlockedMatrix.rowPointers m),
            Some <$> take (Z.to_nat nnzb) (BlockedMatrix.colIndices m),
            vals) /\
    staged_values bs base nnzb (BlockedMatrix.nnzValues m) vals.
Proof.
  intros HNb Hnnzb Hrows Hcols Hvals. unfold convert_arrays, staged_values.
  rewrite !Z.sub_0_r.
  rewrite (copy_loop_fresh (BlockedMatrix.rowPointers m) (Nb + 1)) by lia.
  cbn [mbind option_bind].
  rewrite (copy_loop_fresh (BlockedMatrix.colIndices m) nnzb) by lia.
  cbn [mbind option_bind].
  destruct (Z.eqb_spec base 0) as [Hbase|Hbase].
  - destruct (Hvals Hbase) as (Hbs & Hwrap & Hlen).
    assert (Hsize : umul (umul nnzb bs) bs = nnzb * bs * bs).
    { assert (0 <= nnzb * bs) by nia. assert (nnzb * bs <= nnzb * bs * bs) by nia.
      rewrite (umul_small nnzb bs) by nia. apply umul_small; nia. }
    rewrite Hsize.
    destruct (iterate_copy_block bs (BlockedMatrix.nnzValues m) (Z.to_nat nnzb) 0
                (new_cells (nnzb * bs * bs)))
      as (vals & -> & Hl & Hin & Hout);
      rewrite ?Z2Nat.id, ?Z.add_0_l, ?new_cells_length by nia; try lia.
    exists vals. split; [reflexivity|].
    split; [rewrite Hl; unfold new_cells; apply length_replicate|].
    rewrite Z.add_0_l, Z2Nat.id in Hin, Hout by lia.
    split; [exact Hin | exact Hout].
  - cbn [mbind option_bind]. eexists. split; reflexivity.
Qed.

(** ** The heap of a session *)

Lemma session_heap_Nb bs h : Nb (this (session_heap bs h)) = session_Nb h.
Proof. unfold session_heap, session_Nb. destruct (initialized (this h)); reflexivity. Qed.

Lemma session_heap_nnzb bs h : nnzb (this (session_heap bs h)) = session_nnzb h.
Proof. unfold session_heap, session_nnzb. destruct (initialized (this h)); reflexivity. Qed.

Lemma session_heap_matrix bs h : matrix (session_heap bs h) = matrix h.
Proof. unfold session_heap. destruct (initialized (this h)); reflexivity. Qed.

Lemma session_heap_b bs h : b (session_heap bs h) = b h.
Proof. unfold session_heap. destruct (initialized (this h)); reflexivity. Qed.

Lemma session_heap_solves bs h : solves (session_heap bs h) = solves h.
Proof. unfold session_heap. destruct (initialized (this h)); reflexivity. Qed.

Lemma session_heap_initialized bs h : initialized (this (session_heap bs h)) = true.
Proof. unfold session_heap. destruct (initialized (this h)) eqn:E; [exact E | reflexivity]. Qed.

Lemma length_resize n v : length (resize n v) = Z.to_nat n.
Proof.
  unfold resize. rewrite length_app, length_take, length_replicate. lia.
Qed.

Lemma session_heap_h_x bs P h :
  well_sized bs P h ->
  session_Nb h * bs <= Z.of_nat (length (h_x (this (session_heap bs h)))).
Proof.
  intros W. unfold session_heap.
  destruct (initialized (this h)) eqn:E.
  - apply (ws_h_x _ _ _ W E).
  - pose proof (ws_h_x _ _ _ W) as _.
    pose proof (ws_block_size _ _ _ W). pose proof (ws_Nb _ _ _ W).
    pose proof (ws_N _ _ _ W) as HN.
    unfold session_Nb in *. rewrite E in *.
    cbn [initialized_heap this with_this set_initialized set_h_x h_x].
    rewrite length_resize, umul_small by lia. nia.
Qed.

(** *** The heap a solve call leaves *)

Lemma solved_heap_matrix P call h : matrix (solved_heap P call h) = matrix h.
Proof. unfold solved_heap. rewrite log_if_matrix. cbn. now rewrite log_if_matrix. Qed.

Lemma solved_heap_b P call h : b (solved_heap P call h) = b h.
Proof. unfold solved_heap. rewrite log_if_b. cbn. now rewrite log_if_b. Qed.

Lemma solved_heap_solves P call h :
  solves (solved_heap P call h) = solves h ++ [call].
Proof. unfold solved_heap. rewrite log_if_solves. cbn. now rewrite log_if_solves. Qed.

Lemma solved_heap_this P call h :
  Nb (this (solved_heap P call h)) = Nb (this h) /\
  nnzb (this (solved_heap P call h)) = nnzb (this h) /\
  initialized (this (solved_heap P call h)) = initialized (this h) /\
  tmp_rowpointers (this (solved_heap P call h)) = None /\
  tmp_colindices (this (solved_heap P call h)) = None /\
  tmp_nnzvalues (this (solved_heap P call h)) = None.
Proof.
  unfold solved_heap. rewrite log_if_this. cbn. rewrite log_if_this.
  repeat split.
Qed.

(** ** Every outcome of [solve_system] *)

(** A normal return, read backwards. *)
Lemma solve_system_inv bs P jacMatrix wellContribs h st res h' :
  solve_system bs P jacMatrix wellContribs h = Normal (st, res, h') ->
  exists rp ci vals,
    convert_arrays bs (BCSR_IND_BASE P) (matrix h) (session_Nb h) (session_nnzb h)
      (new_cells (session_Nb h + 1)) (new_cells (session_nnzb h))
      (new_cells (umul (umul (session_nnzb h) bs) bs)) = Some (rp, ci, vals) /\
    0 <= session_Nb h + 1 /\ 0 <= session_nnzb h /\
    st = GPU_SOLVER_SUCCESS /\
    res = solve_result P (solves h)
            (solve_call bs (session_heap bs h) rp ci vals) /\
    h' = solved_heap P (solve_call bs (session_heap bs h) rp ci vals)
           (session_heap bs h).
Proof.
  rewrite solve_system_outcome. unfold solve_outcome.
  change (if initialized (this h) then h else initialized_heap bs h)
    with (session_heap bs h).
  cbv zeta. rewrite session_heap_Nb, session_heap_nnzb, session_heap_matrix,
    session_heap_solves.
  destruct (negb (int_range _)); [discriminate|].
  destruct (Z.ltb_spec (session_Nb h + 1) 0); [discriminate|].
  destruct (Z.ltb_spec (session_nnzb h) 0); [discriminate|].
  destruct (convert_arrays _ _ _ _ _ _ _ _) as [[[rp ci] vals]|]; [|discriminate].
  destruct (negb (_ <=? length (b _))%nat); [discriminate|].
  destruct (negb (_ <=? _)%nat); [discriminate|].
  intros [= <- <- <-]. exists rp, ci, vals. repeat split; assumption.
Qed.

(** With well-sized arrays the call returns. *)
Lemma solve_system_ok bs P jacMatrix wellContribs h :
  well_sized bs P h ->
  exists vals,
    staged_values bs (BCSR_IND_BASE P) (session_nnzb h)
      (BlockedMatrix.nnzValues (matrix h)) vals /\
    solve_system bs P jacMatrix wellContribs h =
      let call :=
        solve_call bs (session_heap bs h)
          (Some <$> take (Z.to_nat (session_Nb h + 1))
                      (BlockedMatrix.rowPointers (matrix h)))
          (Some <$> take (Z.to_nat (session_nnzb h))
                      (BlockedMatrix.colIndices (matrix h)))
          vals in
      Normal (GPU_SOLVER_SUCCESS, solve_result P (solves h) call,
              solved_heap P call (session_heap bs h)).
Proof.
  intros W.
  pose proof (ws_block_size _ _ _ W) as Hbs. pose proof (ws_Nb _ _ _ W) as HNb.
  pose proof (ws_nnzb _ _ _ W) as Hnnzb.
  destruct (convert_arrays_ok bs (BCSR_IND_BASE P) (matrix h)
              (session_Nb h) (session_nnzb h)) as (vals & Hconv & Hstaged);
    [lia | lia | apply (ws_rowPointers _ _ _ W) | apply (ws_colIndices _ _ _ W)
    | apply (ws_nnzValues _ _ _ W) |].
  exists vals. split; [exact Hstaged|].
  rewrite solve_system_outcome. unfold solve_outcome.
  change (if initialized (this h) then h else initialized_heap bs h)
    with (session_heap bs h).
  cbv zeta. rewrite session_heap_Nb, session_heap_nnzb, session_heap_matrix,
    session_heap_solves, Hconv.
  assert (int_range (session_Nb h + 1) = true) as ->.
  { unfold int_range, INT_MAX in *. apply andb_true_intro. split; apply Z.leb_le; lia. }
  destruct (Z.ltb_spec (session_Nb h + 1) 0); [lia|].
  destruct (Z.ltb_spec (session_nnzb h) 0); [lia|].
  cbn [negb].
  rewrite session_heap_b.
  destruct (Nat.leb_spec (Z.to_nat (session_Nb h * bs)) (length (b h))) as [_|Hb];
    [|pose proof (ws_b _ _ _ W); lia].
  cbn [negb]. rewrite length_resize.
  pose proof (session_heap_h_x bs P h W) as Hx.
  destruct (Nat.leb_spec (Z.to_nat (session_Nb h * bs))
              (length (h_x (this (session_heap bs h))))) as [_|Hx']; [|lia].
  reflexivity.
Qed.

(** ** The sample sessions *)

(** The size conditions of a sample session, by evaluation. *)

Ltac well_sized_sample :=
  split; cbn; unfold INT_MAX, UINT_MOD;
  first [ lia | intros [=] | intros _; repeat split; cbn; lia ].

(** ** The 3x3 transposition *)

Lemma source_offset_cases k :
  0 <= k < 9 ->
  k = 0 \/ k = 1 \/ k = 2 \/ k = 3 \/ k = 4 \/ k = 5 \/ k = 6 \/ k = 7 \/ k = 8.
Proof. lia. Qed.

Lemma source_offset_range k : 0 <= k < 9 -> 0 <= source_offset k < 9.
Proof.
  intros Hk. destruct (source_offset_cases k Hk) as [-> | [-> | [-> | [-> |
    [-> | [-> | [-> | [-> | ->]]]]]]]]; vm_compute; split; congruence.
Qed.

Lemma source_offset_involutive k :
  0 <= k < 9 -> source_offset (source_offset k) = k.
Proof.
  intros Hk. destruct (source_offset_cases k Hk) as [-> | [-> | [-> | [-> |
    [-> | [-> | [-> | [-> | ->]]]]]]]]; reflexivity.
Qed.

Lemma transposed_index_3 q k :
  0 <= k < 9 -> transposed_index 3 (q * 9 + k) = q * 9 + source_offset k.
Proof.
  intros Hk. unfold transposed_index, source_offset. change (3 * 3) with 9.
  rewrite (Z.add_comm (q * 9) k), Z.div_add, Z.mod_add by lia.
  rewrite (Z.div_small k 9), (Z.mod_small k 9) by lia. lia.
Qed.

Lemma split_index j :
  0 <= j -> exists q k, j = q * 9 + k /\ 0 <= q /\ 0 <= k < 9.
Proof.
  intros Hj. exists (j / 9), (j mod 9).
  pose proof (Z.div_mod j 9 ltac:(lia)).
  pose proof (Z.mod_pos_bound j 9 ltac:(lia)).
  assert (0 <= j / 9) by (apply Z.div_pos; lia). lia.
Qed.

Lemma transposed_index_3_involutive j :
  0 <= j -> transposed_index 3 (transposed_index 3 j) = j.
Proof.
  intros Hj. destruct (split_index j Hj) as (q & k & -> & Hq & Hk).
  rewrite transposed_index_3 by lia.
  rewrite transposed_index_3 by (apply source_offset_range; lia).
  now rewrite source_offset_involutive by lia.
Qed.

Lemma transposed_index_3_range n j :
  0 <= j < n * 9 -> 0 <= transposed_index 3 j < n * 9.
Proof.
  intros Hj. destruct (split_index j ltac:(lia)) as (q & k & -> & Hq & Hk).
  rewrite transposed_index_3 by lia.
  pose proof (source_offset_range k Hk). lia.
Qed.

Lemma subscript_transpose_blocks bs n vals j :
  0 <= j < n ->
  subscript (transpose_blocks bs n vals) j
    = Some (subscript vals (transposed_index bs j)).
Proof.
  intros Hj. unfold transpose_blocks.
  rewrite subscript_lookup, list_lookup_fmap by lia.
  rewrite lookup_seqZ_lt by lia. cbn. now rewrite Z2Nat.id by lia.
Qed.

Lemma transpose_blocks_length bs n vals :
  length (transpose_blocks bs n vals) = Z.to_nat n.
Proof. unfold transpose_blocks. now rewrite length_fmap, length_seqZ. Qed.

Lemma subscript_fmap_Some {A : Type} (l : list A) j :
  subscript (Some <$> l) j = Some <$> subscript l j.
Proof.
  unfold subscript. destruct (j <? 0); [reflexivity|]. apply list_lookup_fmap.
Qed.

(** Under the column-major convention, the cells staged for 3x3 blocks are
    the caller's values with every block transposed. *)
Lemma staged_values_3x3 nnzb src vals :
  0 <= nnzb -> nnzb * 9 <= Z.of_nat (length src) ->
  staged_values 3 0 nnzb src vals ->
  vals = transpose_blocks 3 (nnzb * 9) src.
Proof.
  intros Hn Hsrc (Hlen & Hin & _). apply array_eq. intros j Hj.
  replace (nnzb * 3 * 3) with (nnzb * 9) in Hlen by lia.
  destruct (Z.lt_ge_cases j (nnzb * 9)) as [Hlt|Hge].
  - destruct (split_index j Hj) as (q & k & -> & Hq & Hk).
    rewrite subscript_transpose_blocks, transposed_index_3 by lia.
    replace (q * 9) with (q * 3 * 3) by lia.
    rewrite Hin by lia.
    pose proof (source_offset_range k Hk).
    destruct (subscript_is_Some src (q * 3 * 3 + source_offset k))
      as [v ->]; [lia | reflexivity].
  - rewrite !subscript_beyond; [reflexivity | |].
    + rewrite transpose_blocks_length. lia.
    + rewrite Hlen. lia.
Qed.

(** Transposing 3x3 blocks twice gives the values back. *)
Lemma transpose_blocks_3_round_trip nnzb vals v1 :
  0 <= nnzb -> Z.of_nat (length vals) = nnzb * 9 ->
  transpose_blocks 3 (nnzb * 9) vals = Some <$> v1 ->
  transpose_blocks 3 (nnzb * 9) v1 = Some <$> vals.
Proof.
  intros Hn Hlen H1. apply array_eq. intros j Hj.
  destruct (Z.lt_ge_cases j (nnzb * 9)) as [Hlt|Hge].
  - rewrite subscript_transpose_blocks, subscript_fmap_Some by lia.
    pose proof (transposed_index_3_range nnzb j ltac:(lia)) as Hr.
    pose proof (f_equal (fun a => subscript a (transposed_index 3 j)) H1) as H2.
    cbv beta in H2.
    rewrite subscript_transpose_blocks, subscript_fmap_Some in H2 by lia.
    rewrite transposed_index_3_involutive in H2 by lia.
    destruct (subscript v1 (transposed_index 3 j)) as [y|]; [|discriminate H2].
    cbn in H2. injection H2 as ->. reflexivity.
  - rewrite !subscript_beyond; [reflexivity | |].
    + rewrite length_fmap. lia.
    + rewrite transpose_blocks_length. lia.
Qed.

(** ** [convert_matrix] writes to the staging arrays only *)

Lemma untouched_refl h : untouched h h.
Proof. split; reflexivity. Qed.

Lemma untouched_trans h1 h2 h3 : untouched h1 h2 -> untouched h2 h3 -> untouched h1 h3.
Proof. intros [? ? ?] [? ? ?]. split; congruence. Qed.

Lemma with_this_untouched f h : untouched h (with_this f h).
Proof. split; reflexivity. Qed.

Lemma with_OpmLog_untouched f h : untouched h (with_OpmLog f h).
Proof. split; reflexivity. Qed.

Ltac stable_untouched :=
  repeat first
    [ exact untouched_refl
    | exact untouched_trans
    | apply stable_get
    | apply stable_defined
    | apply stable_ret
    | apply stable_undefined
    | apply stable_int_add
    | apply stable_modify; intros ?; split; reflexivity
    | apply stable_if
    | apply stable_for; [| | intros ?]
    | apply stable_bind; [| | intros ?] ].

Lemma copy_rowPointer_untouched i : stable untouched (copy_rowPointer i).
Proof. unfold copy_rowPointer. stable_untouched. Qed.

Lemma copy_colIndex_untouched i : stable untouched (copy_colIndex i).
Proof. unfold copy_colIndex. stable_untouched. Qed.

Lemma copy_nnzValue_untouched bs i dst_k src_k :
  stable untouched (copy_nnzValue bs i dst_k src_k).
Proof. unfold copy_nnzValue. stable_untouched. Qed.

(** Whatever heap it starts from, a run of [convert_matrix] that returns
    has left the caller's matrix and right-hand side as they were. *)
Lemma convert_matrix_untouched bs P : stable untouched (convert_matrix bs P).
Proof.
  unfold convert_matrix, log.
  repeat first
    [ apply copy_rowPointer_untouched
    | apply copy_colIndex_untouched
    | apply copy_nnzValue_untouched
    | progress stable_untouched ].
Qed.

(** ** Too few row pointers *)

(** A [rowPointers] array shorter than [Nb + 1] is read past its end. *)
Lemma solve_system_short_rowPointers bs P jacMatrix wellContribs h :
  0 <= session_Nb h < INT_MAX -> 0 <= session_nnzb h ->
  Z.of_nat (length (BlockedMatrix.rowPointers (matrix h))) < session_Nb h + 1 ->
  solve_system bs P jacMatrix wellContribs h = Undefined.
Proof.
  intros HNb Hnnzb Hshort.
  rewrite solve_system_outcome. unfold solve_outcome.
  change (if initialized (this h) then h else initialized_heap bs h)
    with (session_heap bs h).
  cbv zeta. rewrite session_heap_Nb, session_heap_nnzb, session_heap_matrix.
  destruct (negb (int_range _)); [reflexivity|].
  destruct (Z.ltb_spec (session_Nb h + 1) 0); [lia|].
  destruct (Z.ltb_spec (session_nnzb h) 0); [lia|].
  unfold convert_arrays.
  rewrite (copy_loop_short (BlockedMatrix.rowPointers (matrix h))
             (Z.to_nat (session_Nb h + 1 - 0)) 0 (new_cells (session_Nb h + 1)));
    [reflexivity | lia | rewrite new_cells_length by lia; lia | lia].
Qed.

(** ** When a solve call returns *)

Lemma int_range_spec z :
  int_range z = true <-> - INT_MAX - 1 <= z <= INT_MAX.
Proof.
  unfold int_range. rewrite andb_true_iff, !Z.leb_le. lia.
Qed.

(** The checks a returning call has passed. *)
Lemma solve_system_inv_sizes bs P jacMatrix wellContribs h st res h' :
  solve_system bs P jacMatrix wellContribs h = Normal (st, res, h') ->
  int_range (session_Nb h + 1) = true /\
  (Z.to_nat (session_Nb h * bs) <= length (b h))%nat /\
  (Z.to_nat (session_Nb h * bs) <= length (h_x (this (session_heap bs h))))%nat.
Proof.
  rewrite solve_system_outcome. unfold solve_outcome.
  change (if initialized (this h) then h else initialized_heap bs h)
    with (session_heap bs h).
  cbv zeta. rewrite session_heap_Nb, session_heap_nnzb, session_heap_matrix,
    session_heap_b.
  destruct (int_range _); [|discriminate]. cbn [negb].
  destruct (Z.ltb_spec (session_Nb h + 1) 0); [discriminate|].
  destruct (Z.ltb_spec (session_nnzb h) 0); [discriminate|].
  destruct (convert_arrays _ _ _ _ _ _ _ _) as [[[rp ci] vals]|]; [|discriminate].
  destruct (Nat.leb_spec (Z.to_nat (session_Nb h * bs)) (length (b h)));
    [|discriminate]. cbn [negb].
  rewrite length_resize.
  destruct (Nat.leb_spec (Z.to_nat (session_Nb h * bs))
              (length (h_x (this (session_heap bs h))))); [|discriminate].
  intros _. auto.
Qed.

(** The checks that make a call return. *)
Lemma solve_system_returns bs P jacMatrix wellContribs h rp ci vals :
  int_range (session_Nb h + 1) = true ->
  0 <= session_Nb h + 1 -> 0 <= session_nnzb h ->
  convert_arrays bs (BCSR_IND_BASE P) (matrix h) (session_Nb h) (session_nnzb h)
    (new_cells (session_Nb h + 1)) (new_cells (session_nnzb h))
    (new_cells (umul (umul (session_nnzb h) bs) bs)) = Some (rp, ci, vals) ->
  (Z.to_nat (session_Nb h * bs) <= length (b h))%nat ->
  (Z.to_nat (session_Nb h * bs) <= length (h_x (this (session_heap bs h))))%nat ->
  solve_system bs P jacMatrix wellContribs h =
    Normal (GPU_SOLVER_SUCCESS,
            solve_result P (solves h)
              (solve_call bs (session_heap bs h) rp ci vals),
            solved_heap P (solve_call bs (session_heap bs h) rp ci vals)
              (session_heap bs h)).
Proof.
  intros Hrange HNb Hnnzb Hconv Hb Hx.
  rewrite solve_system_outcome. unfold solve_outcome.
  change (if initialized (this h) then h else initialized_heap bs h)
    with (session_heap bs h).
  cbv zeta. rewrite session_heap_Nb, session_heap_nnzb, session_heap_matrix,
    session_heap_b, session_heap_solves, Hrange, Hconv.
  cbn [negb].
  destruct (Z.ltb_spec (session_Nb h + 1) 0); [lia|].
  destruct (Z.ltb_spec (session_nnzb h) 0); [lia|].
  destruct (Nat.leb_spec (Z.to_nat (session_Nb h * bs)) (length (b h))); [|lia].
  cbn [negb]. rewrite length_resize.
  destruct (Nat.leb_spec (Z.to_nat (session_Nb h * bs))
              (length (h_x (this (session_heap bs h))))); [|lia].
  reflexivity.
Qed.

(** *** More of the heap a solve call leaves *)

Lemma solved_heap_members P call h :
  N (this (solved_heap P call h)) = N (this h) /\
  nnz (this (solved_heap P call h)) = nnz (this h) /\
  roc_solver (this (solved_heap P call h)) = roc_solver (this h) /\
  verbosity (this (solved_heap P call h)) = verbosity (this h) /\
  h_x (this (solved_heap P call h))
    = resize (GetN (call_operator call)) (run_x (Solve P call))
      ++ drop (length (resize (GetN (call_operator call)) (run_x (Solve P call))))
              (h_x (this h)).
Proof.
  unfold solved_heap. rewrite log_if_this. cbn. rewrite log_if_this.
  repeat split.
Qed.

Lemma solved_heap_h_x_length P call h :
  (Z.to_nat (GetN (call_operator call)) <= length (h_x (this h)))%nat ->
  length (h_x (this (solved_heap P call h))) = length (h_x (this h)).
Proof.
  intros Hx. destruct (solved_heap_members P call h) as (_ & _ & _ & _ & ->).
  rewrite length_app, length_drop, length_resize. lia.
Qed.

Lemma solved_heap_OpmLog P call h :
  OpmLog (solved_heap P call h)
    = OpmLog h
      ++ (if 3 <=? verbosity (this h) then [LogConvertMatrix] else [])
      ++ (if 1 <=? verbosity (this h)
          then [LogSolve (solve_result P (solves h) call)
                  (elapsed (solve_result P (solves h) call)
                   / int_to_double
                       (iterations (solve_result P (solves h) call)))%float]
          else []).
Proof.
  unfold solved_heap, log_if.
  destruct (1 <=? verbosity (this h)), (3 <=? verbosity (this h)); cbn;
    rewrite ?app_nil_r, <- ?app_assoc; reflexivity.
Qed.

Lemma session_heap_OpmLog bs h :
  OpmLog (session_heap bs h)
    = OpmLog h
      ++ (if initialized (this h) then []
          else [LogInitializing (BlockedMatrix.Nb (matrix h))
                  (BlockedMatrix.nnzbs (matrix h))
                  (maxit (this h)) (tolerance (this h))]).
Proof.
  unfold session_heap. destruct (initialized (this h)); cbn;
    rewrite ?app_nil_r; reflexivity.
Qed.

Lemma session_heap_verbosity bs h :
  verbosity (this (session_heap bs h)) = verbosity (this h).
Proof. unfold session_heap. destruct (initialized (this h)); reflexivity. Qed.

Lemma session_heap_control bs h :
  roc_solver (this (session_heap bs h)) = roc_solver (this h).
Proof. unfold session_heap. destruct (initialized (this h)); reflexivity. Qed.

Lemma session_heap_coherent bs h :
  (initialized (this h) = true -> coherent bs (this h)) ->
  coherent bs (this (session_heap bs h)).
Proof.
  intros Hc. unfold session_heap. destruct (initialized (this h)) eqn:E.
  - now apply Hc.
  - split; cbn; [reflexivity | reflexivity | apply length_resize].
Qed.

(** ** When the loops of [convert_matrix] run through *)

Lemma copy_loop_fresh_iff {A : Type} (src : list A) n :
  0 <= n ->
  is_Some (iterate_cells (Z.to_nat (n - 0)) 0 (copy_cell src) (new_cells n))
  <-> n <= Z.of_nat (length src).
Proof.
  intros Hn. rewrite Z.sub_0_r. split.
  - intros [a Ha]. destruct (Z.le_gt_cases n (Z.of_nat (length src))) as [?|Hshort];
      [assumption|].
    rewrite copy_loop_short in Ha;
      [discriminate | lia | rewrite new_cells_length by lia; lia | lia].
  - intros Hlen. rewrite copy_loop_fresh by lia. eauto.
Qed.

Lemma assign_Some_inv {A : Type} (a a' : array A) j v :
  assign a j v = Some a' -> 0 <= j < Z.of_nat (length a).
Proof.
  unfold assign. destruct (Z.ltb_spec j 0); [discriminate|].
  destruct (Nat.ltb_spec (Z.to_nat j) (length a)); [|discriminate].
  intros _. lia.
Qed.

Lemma copy_value_Some_inv bs src dst_k src_k i a a' :
  copy_value bs src dst_k src_k i a = Some a' ->
  length a' = length a /\
  0 <= block_offset bs i dst_k < Z.of_nat (length a) /\
  is_Some (subscript src (block_offset bs i src_k)).
Proof.
  intros E. split; [eapply copy_value_length, E|]. unfold copy_value in E.
  destruct (subscript src _) as [v|]; [|discriminate]. cbn in E.
  split; [eapply assign_Some_inv, E | eauto].
Qed.

(** A pass of the value loop that runs through has assigned the cell at
    offset 8 of its block and read the caller's value there. *)
Lemma copy_block_Some_inv bs src i a a' :
  copy_block bs src i a = Some a' ->
  0 <= block_offset bs i 8 < Z.of_nat (length a) /\
  is_Some (subscript src (block_offset bs i 8)).
Proof.
  unfold copy_block. intros E.
  repeat match type of E with
  | (copy_value ?bs ?src ?d ?s ?i ?x ≫= _) = Some _ =>
      let a1 := fresh "a" in let E1 := fresh "E" in
      destruct (copy_value bs src d s i x) as [a1|] eqn:E1; [|discriminate E];
      apply copy_value_length in E1; cbn [mbind option_bind] in E
  end.
  apply copy_value_Some_inv in E as (_ & Hd & Hs).
  split; [|exact Hs]. replace (length a) with (length a7) by congruence. exact Hd.
Qed.

Lemma iterate_copy_block_Some_inv bs src n :
  forall i a a',
    iterate_cells n i (copy_block bs src) a = Some a' ->
    forall q, i <= q < i + Z.of_nat n ->
      0 <= block_offset bs q 8 < Z.of_nat (length a) /\
      is_Some (subscript src (block_offset bs q 8)).
Proof.
  induction n as [|n IH]; intros i a a' E q Hq; [lia|].
  simpl in E. destruct (copy_block bs src i a) as [a1|] eqn:E1; [|discriminate].
  destruct (decide (q = i)) as [->|Hne].
  - eapply copy_block_Some_inv, E1.
  - rewrite <- (copy_block_length _ _ _ _ _ E1).
    eapply (IH (i + 1) a1 a' E). lia.
Qed.

(** The loops run through exactly when each of them does. *)
Lemma convert_arrays_Some_iff bs base m Nb nnzb :
  0 <= Nb + 1 -> 0 <= nnzb ->
  is_Some (convert_arrays bs base m Nb nnzb (new_cells (Nb + 1)) (new_cells nnzb)
             (new_cells (umul (umul nnzb bs) bs)))
  <->
  Nb + 1 <= Z.of_nat (length (BlockedMatrix.rowPointers m)) /\
  nnzb <= Z.of_nat (length (BlockedMatrix.colIndices m)) /\
  (base = 0 ->
   is_Some (iterate_cells (Z.to_nat (nnzb - 0)) 0
              (copy_block bs (BlockedMatrix.nnzValues m))
              (new_cells (umul (umul nnzb bs) bs)))).
Proof.
  intros HNb Hnnzb.
  rewrite <- (copy_loop_fresh_iff (BlockedMatrix.rowPointers m) (Nb + 1) HNb).
  rewrite <- (copy_loop_fresh_iff (BlockedMatrix.colIndices m) nnzb Hnnzb).
  unfold convert_arrays.
  destruct (iterate_cells _ 0 (copy_cell (BlockedMatrix.rowPointers m)) _) as [rp|];
    cbn [mbind option_bind].
  2: { split; [intros [? [=]] | intros ([? [=]] & _)]. }
  destruct (iterate_cells _ 0 (copy_cell (BlockedMatrix.colIndices m)) _) as [ci|];
    cbn [mbind option_bind].
  2: { split; [intros [? [=]] | intros (_ & [? [=]] & _)]. }
  destruct (Z.eqb_spec base 0) as [Hb|Hb].
  - destruct (iterate_cells _ 0 (copy_block bs _) _) as [vals|];
      cbn [mbind option_bind].
    + split; eauto.
    + split; [intros [? [=]] | intros (_ & _ & Hv); destruct (Hv Hb) as [? [=]]].
  - cbn [mbind option_bind]. split; [|eauto].
    intros _. repeat split; eauto. intros ?; contradiction.
Qed.

(** Where the loops run through, the row pointers and column indices
    staged are the caller's, as they are. *)
Lemma convert_arrays_Some_verbatim bs base m Nb nnzb rp ci vals :
  0 <= Nb + 1 -> 0 <= nnzb ->
  convert_arrays bs base m Nb nnzb (new_cells (Nb + 1)) (new_cells nnzb)
    (new_cells (umul (umul nnzb bs) bs)) = Some (rp, ci, vals) ->
  rp = Some <$> take (Z.to_nat (Nb + 1)) (BlockedMatrix.rowPointers m) /\
  ci = Some <$> take (Z.to_nat nnzb) (BlockedMatrix.colIndices m).
Proof.
  intros HNb Hnnzb E.
  assert (is_Some (convert_arrays bs base m Nb nnzb (new_cells (Nb + 1))
                     (new_cells nnzb) (new_cells (umul (umul nnzb bs) bs))))
    as Hs by (rewrite E; eauto).
  apply convert_arrays_Some_iff in Hs as (Hrp & Hci & _); [|assumption..].
  unfold convert_arrays in E. rewrite !Z.sub_0_r in E.
  rewrite (copy_loop_fresh _ (Nb + 1)) in E by lia.
  rewrite (copy_loop_fresh _ nnzb) in E by lia.
  cbn [mbind option_bind] in E.
  destruct (if base =? 0 then _ else _) as [vals'|]; cbn in E; [|discriminate].
  injection E as <- <- _. split; reflexivity.
Qed.

(** A solve call returns exactly when it passes its checks and the loops
    of [convert_matrix] run through. *)
Lemma solve_system_returns_iff bs P jacMatrix wellContribs h :
  (exists res h',
     solve_system bs P jacMatrix wellContribs h = Normal (GPU_SOLVER_SUCCESS, res, h'))
  <->
  - INT_MAX - 1 <= session_Nb h + 1 <= INT_MAX /\
  0 <= session_Nb h + 1 /\ 0 <= session_nnzb h /\
  is_Some (convert_arrays bs (BCSR_IND_BASE P) (matrix h) (session_Nb h)
             (session_nnzb h) (new_cells (session_Nb h + 1))
             (new_cells (session_nnzb h))
             (new_cells (umul (umul (session_nnzb h) bs) bs))) /\
  (Z.to_nat (session_Nb h * bs) <= length (b h))%nat /\
  (Z.to_nat (session_Nb h * bs) <= length (h_x (this (session_heap bs h))))%nat.
Proof.
  rewrite <- int_range_spec. split.
  - intros (res & h' & E).
    pose proof (solve_system_inv_sizes _ _ _ _ _ _ _ _ E) as (Hr & Hb & Hx).
    apply solve_system_inv in E as (rp & ci & vals & Hc & HNb & Hnnzb & _).
    rewrite Hc. eauto 10.
  - intros (Hr & HNb & Hnnzb & [[[rp ci] vals] Hc] & Hb & Hx).
    eexists _, _.
    apply (solve_system_returns bs P jacMatrix wellContribs h rp ci vals);
      assumption.
Qed.


(** * The claims of the specification *)

(** ** Convergence flag *)

(** C1 (as amended): a solve call that returns has invoked the solver once,
    and reports [converged = true] exactly when the solver's status is 2
    (relative tolerance reached); status 1 (absolute tolerance reached),
    3 (divergence) and 4 (iteration limit) all yield [converged = false]. *)
Theorem converged_iff_relative_tolerance bs P jacMatrix wellContribs h st res h' :
  solve_system bs P jacMatrix wellContribs h = Normal (st, res, h') ->
  exists call,
    solves h' = solves h ++ [call] /\
    (converged res = true <->
     GetSolverStatus (Solve P call) = STATUS_RELATIVE_TOLERANCE) /\
    (GetSolverStatus (Solve P call) = STATUS_ABSOLUTE_TOLERANCE \/
     GetSolverStatus (Solve P call) = STATUS_DIVERGENCE \/
     GetSolverStatus (Solve P call) = STATUS_MAX_ITERATIONS ->
     converged res = false).
Proof.
  intros E.
  apply solve_system_inv in E as (rp & ci & vals & _ & _ & _ & _ & -> & ->).
  eexists. split.
  - rewrite solved_heap_solves, session_heap_solves. reflexivity.
  - unfold solve_result, STATUS_RELATIVE_TOLERANCE, STATUS_ABSOLUTE_TOLERANCE,
      STATUS_DIVERGENCE, STATUS_MAX_ITERATIONS. cbn [converged]. split.
    + apply Z.eqb_eq.
    + intros Hstatus. apply Z.eqb_neq. lia.
Qed.

Lemma converged_iff_relative_tolerance_witness :
  exists res h',
    solve_system 3 (sample_platform 0) None no_wells unit_rhs_session
      = Normal (GPU_SOLVER_SUCCESS, res, h') /\
    exists call,
      solves h' = solves unit_rhs_session ++ [call] /\
      (converged res = true <->
       GetSolverStatus (Solve (sample_platform 0) call) = STATUS_RELATIVE_TOLERANCE) /\
      (GetSolverStatus (Solve (sample_platform 0) call) = STATUS_ABSOLUTE_TOLERANCE \/
       GetSolverStatus (Solve (sample_platform 0) call) = STATUS_DIVERGENCE \/
       GetSolverStatus (Solve (sample_platform 0) call) = STATUS_MAX_ITERATIONS ->
       converged res = false).
Proof.
  eexists _, _. split.
  - vm_compute. reflexivity.
  - apply (converged_iff_relative_tolerance 3 (sample_platform 0) None no_wells
             unit_rhs_session GPU_SOLVER_SUCCESS).
    vm_compute. reflexivity.
Defined.

(** C1 (as stated) fails: on the zero right-hand side the solver stops with
    the absolute residual within the absolute tolerance (status 1), which the
    specification counts as converged, and the call reports
    [converged = false]. *)
Lemma converged_absolute_tolerance_counterexample :
  exists res h' call,
    solve_system 3 (sample_platform 0) None no_wells zero_rhs_session
      = Normal (GPU_SOLVER_SUCCESS, res, h') /\
    solves h' = [call] /\
    GetSolverStatus (Solve (sample_platform 0) call) = STATUS_ABSOLUTE_TOLERANCE /\
    (GetCurrentResidual (Solve (sample_platform 0) call)
       <=? abs_tol (call_control call))%float = true /\
    converged_as_specified (Solve (sample_platform 0) call) = true /\
    converged res = false.
Proof.
  eexists _, _, _. split; [vm_compute; reflexivity|].
  split; [vm_compute; reflexivity|].
  repeat split; vm_compute; reflexivity.
Qed.

(** ** Convergence rate *)

(** C4 (as amended): a solve call that returns reports
    [conv_rate = pow(reduction, 1.0 / iterations)] for every iteration
    count, the division being that of [double]; nothing guards
    [iterations == 0], where the exponent is [1.0 / 0 = +infinity]. *)
Theorem conv_rate_unguarded bs P jacMatrix wellContribs h st res h' :
  solve_system bs P jacMatrix wellContribs h = Normal (st, res, h') ->
  conv_rate res
    = pow P (reduction res) (1 / int_to_double (iterations res))%float /\
  (iterations res = 0 ->
   conv_rate res = pow P (reduction res) PrimFloat.infinity).
Proof.
  intros E.
  apply solve_system_inv in E as (rp & ci & vals & _ & _ & _ & _ & -> & _).
  unfold solve_result. cbn [conv_rate reduction iterations].
  split; [reflexivity|]. intros ->. reflexivity.
Qed.

Lemma conv_rate_unguarded_witness :
  exists res h',
    solve_system 3 (sample_platform 0) None no_wells unit_rhs_session
      = Normal (GPU_SOLVER_SUCCESS, res, h') /\
    conv_rate res
      = pow (sample_platform 0) (reduction res)
          (1 / int_to_double (iterations res))%float /\
    (iterations res = 0 ->
     conv_rate res = pow (sample_platform 0) (reduction res) PrimFloat.infinity).
Proof.
  eexists _, _. split.
  - vm_compute. reflexivity.
  - eapply (conv_rate_unguarded 3 (sample_platform 0) None no_wells
             unit_rhs_session GPU_SOLVER_SUCCESS).
    vm_compute. reflexivity.
Defined.

(** C4 (as stated) fails: on the zero right-hand side the solver stops
    before its first iteration; the reduction is [0 / 0], and the rate
    reported is [pow(NaN, +infinity)], not 1.0. *)
Lemma conv_rate_zero_iterations_counterexample :
  exists res h',
    solve_system 3 (sample_platform 0) None no_wells zero_rhs_session
      = Normal (GPU_SOLVER_SUCCESS, res, h') /\
    iterations res = 0 /\
    PrimFloat.is_nan (reduction res) = true /\
    conv_rate res = pow_special (reduction res) PrimFloat.infinity /\
    PrimFloat.is_nan (conv_rate res) = true /\
    (conv_rate res =? 1)%float = false.
Proof.
  eexists _, _. split; [vm_compute; reflexivity|].
  repeat split; vm_compute; reflexivity.
Qed.

(** ** Well contributions *)

(** C8 (as amended): [solve_system] does not use the well contributions
    (nor the Jacobian matrix) it is given: whatever they are, the outcome is
    the same, and with it the matrix and right-hand side handed to the
    solver. *)
Theorem wellContribs_unused bs P jacMatrix jacMatrix' wellContribs wellContribs' h :
  solve_system bs P jacMatrix wellContribs h
    = solve_system bs P jacMatrix' wellContribs' h.
Proof. rewrite !solve_system_outcome. reflexivity. Qed.

(** C8 (as stated) fails: with a contribution of 1 to every matrix value
    and right-hand-side entry, the solver is handed the caller's values and
    right-hand side as they are, not the sums. *)
Lemma wellContribs_not_added_counterexample :
  exists res h' call,
    solve_system 3 (sample_platform 0) None unit_wells unit_rhs_session
      = Normal (GPU_SOLVER_SUCCESS, res, h') /\
    solves h' = [call] /\
    call_rhs call = [1; 0; 0]%float /\
    b (with_contributions unit_wells unit_rhs_session) = [2; 1; 1]%float /\
    mat_val (call_operator call)
      = Some <$> [1; 4; 7; 2; 5; 8; 3; 6; 9]%float /\
    BlockedMatrix.nnzValues (matrix (with_contributions unit_wells unit_rhs_session))
      = [2; 3; 4; 5; 6; 7; 8; 9; 10]%float.
Proof.
  eexists _, _, _. split; [vm_compute; reflexivity|].
  repeat split; vm_compute; reflexivity.
Qed.

(** ** The caller's matrix *)

(** C9: a solve call that returns leaves the caller's matrix (its
    [rowPointers], [colIndices] and [nnzValues]) and right-hand side as they
    were. *)
Theorem caller_matrix_unchanged bs P jacMatrix wellContribs h st res h' :
  solve_system bs P jacMatrix wellContribs h = Normal (st, res, h') ->
  BlockedMatrix.rowPointers (matrix h') = BlockedMatrix.rowPointers (matrix h) /\
  BlockedMatrix.colIndices (matrix h') = BlockedMatrix.colIndices (matrix h) /\
  BlockedMatrix.nnzValues (matrix h') = BlockedMatrix.nnzValues (matrix h) /\
  matrix h' = matrix h /\ b h' = b h.
Proof.
  intros E.
  apply solve_system_inv in E as (rp & ci & vals & _ & _ & _ & _ & _ & ->).
  rewrite solved_heap_matrix, solved_heap_b, session_heap_matrix, session_heap_b.
  repeat split.
Qed.

Lemma caller_matrix_unchanged_witness :
  exists h',
    BlockedMatrix.rowPointers (matrix h') = [0; 1] /\
    BlockedMatrix.colIndices (matrix h') = [0] /\
    BlockedMatrix.nnzValues (matrix h') = [1; 2; 3; 4; 5; 6; 7; 8; 9]%float /\
    matrix h' = one_block /\ b h' = [1; 0; 0]%float.
Proof.
  eexists.
  eapply (caller_matrix_unchanged 3 (sample_platform 0) None no_wells
            unit_rhs_session GPU_SOLVER_SUCCESS).
  vm_compute. reflexivity.
Defined.

(** ** Outcomes are reported, not raised *)

(** C7 (as amended): on a session whose dimensions are not negative and
    fit the machine integers, with arrays as long as those dimensions say
    and, where the values are copied ([BCSR_IND_BASE = 0]), blocks of at
    least 3x3 ([well_sized]), a solve call returns [GPU_SOLVER_SUCCESS]
    whatever the solver reports (any status, any residual, finite or not),
    after exactly one call of the solver, with every field of the result
    filled from that call: [elapsed] from the timer, [iterations],
    [reduction = residual / norm(b)],
    [conv_rate = pow(reduction, 1.0 / iterations)] and
    [converged = (status == 2)]; non-convergence shows as
    [converged = false]. *)
Theorem solve_reports_without_raising bs P jacMatrix wellContribs h :
  well_sized bs P h ->
  exists res h' call,
    solve_system bs P jacMatrix wellContribs h
      = Normal (GPU_SOLVER_SUCCESS, res, h') /\
    solves h' = solves h ++ [call] /\
    elapsed res = t_solve_stop P (solves h ++ [call]) /\
    iterations res = GetIterationCount (Solve P call) /\
    reduction res
      = (GetCurrentResidual (Solve P call) / Norm P (call_rhs call))%float /\
    conv_rate res
      = pow P (reduction res) (1 / int_to_double (iterations res))%float /\
    converged res = (GetSolverStatus (Solve P call) =? STATUS_RELATIVE_TOLERANCE) /\
    (GetSolverStatus (Solve P call) = STATUS_DIVERGENCE \/
     GetSolverStatus (Solve P call) = STATUS_MAX_ITERATIONS \/
     GetSolverStatus (Solve P call) = STATUS_NONE ->
     converged res = false).
Proof.
  intros W.
  destruct (solve_system_ok bs P jacMatrix wellContribs h W) as (vals & _ & E).
  cbv zeta in E. eexists _, _, _. split; [exact E|].
  split; [now rewrite solved_heap_solves, session_heap_solves|].
  repeat split.
  unfold solve_result, STATUS_DIVERGENCE, STATUS_MAX_ITERATIONS, STATUS_NONE.
  cbn [converged]. intros Hstatus. apply Z.eqb_neq. lia.
Qed.

Lemma solve_reports_without_raising_witness :
  exists res h' call,
    solve_system 3 (sample_platform 0) None no_wells unit_rhs_session
      = Normal (GPU_SOLVER_SUCCESS, res, h') /\
    solves h' = solves unit_rhs_session ++ [call] /\
    elapsed res
      = t_solve_stop (sample_platform 0) (solves unit_rhs_session ++ [call]) /\
    iterations res = GetIterationCount (Solve (sample_platform 0) call) /\
    reduction res
      = (GetCurrentResidual (Solve (sample_platform 0) call)
         / Norm (sample_platform 0) (call_rhs call))%float /\
    conv_rate res
      = pow (sample_platform 0) (reduction res)
          (1 / int_to_double (iterations res))%float /\
    converged res
      = (GetSolverStatus (Solve (sample_platform 0) call)
         =? STATUS_RELATIVE_TOLERANCE) /\
    (GetSolverStatus (Solve (sample_platform 0) call) = STATUS_DIVERGENCE \/
     GetSolverStatus (Solve (sample_platform 0) call) = STATUS_MAX_ITERATIONS \/
     GetSolverStatus (Solve (sample_platform 0) call) = STATUS_NONE ->
     converged res = false).
Proof.
  apply (solve_reports_without_raising 3 (sample_platform 0) None no_wells
           unit_rhs_session).
  well_sized_sample.
Defined.

(** C7 (as stated) fails: not every solve call returns.  After a first
    call with two block rows and three blocks, a call with a well-formed
    matrix of one block row and one block reads past the end of its arrays,
    the session's dimensions being those of the first call; and a
    well-formed system of one 2x2 block, under the column-major convention,
    is read and written past its four values.  Both are undefined
    behaviour: no result comes back. *)
Lemma solve_call_undefined_counterexample :
  exists res1 h1,
    solve_system 3 (sample_platform 0) None no_wells
      (fresh_session three_blocks six_rhs)
      = Normal (GPU_SOLVER_SUCCESS, res1, h1) /\
    solve_system 3 (sample_platform 0) None no_wells
      (assemble one_block [1; 0; 0]%float h1) = Undefined /\
    solve_system 2 (sample_platform 0) None no_wells block_2_session
      = Undefined.
Proof.
  eexists _, _. split; [vm_compute; reflexivity|].
  split; vm_compute; reflexivity.
Qed.

(** ** Malformed matrices *)




(** ** Dimensions across solve calls *)

(** C6 (as amended): a solve call that returns leaves the session
    initialised with the dimensions it worked with: those of its matrix on
    the first call, those already in the session on every later call,
    whatever the dimensions of the matrix then at hand.  Every call
    allocates its staging arrays anew, with [Nb + 1], [nnzb] and
    [nnzb * block_size * block_size] cells for those dimensions, hands them
    to the solver and keeps none. *)
Theorem session_dimensions_fixed bs P jacMatrix wellContribs h st res h' :
  solve_system bs P jacMatrix wellContribs h = Normal (st, res, h') ->
  initialized (this h') = true /\
  Nb (this h') = session_Nb h /\
  nnzb (this h') = session_nnzb h /\
  (initialized (this h) = true ->
   Nb (this h') = Nb (this h) /\ nnzb (this h') = nnzb (this h)) /\
  tmp_rowpointers (this h') = None /\
  tmp_colindices (this h') = None /\
  tmp_nnzvalues (this h') = None /\
  exists call,
    solves h' = solves h ++ [call] /\
    mat_nrowb (call_operator call) = session_Nb h /\
    mat_nnzb (call_operator call) = session_nnzb h /\
    length (mat_row_offset (call_operator call)) = Z.to_nat (session_Nb h + 1) /\
    length (mat_col (call_operator call)) = Z.to_nat (session_nnzb h) /\
    length (mat_val (call_operator call))
      = Z.to_nat (umul (umul (session_nnzb h) bs) bs).
Proof.
  intros E.
  apply solve_system_inv in E as (rp & ci & vals & Hconv & _ & _ & _ & _ & ->).
  apply convert_arrays_length in Hconv as (Hrp & Hci & Hvals).
  unfold new_cells in Hrp, Hci, Hvals.
  rewrite length_replicate in Hrp. rewrite length_replicate in Hci.
  rewrite length_replicate in Hvals.
  destruct (solved_heap_this P
              (solve_call bs (session_heap bs h) rp ci vals) (session_heap bs h))
    as (HNb & Hnnzb & Hinit & Hr & Hc & Hv).
  rewrite session_heap_Nb in HNb. rewrite session_heap_nnzb in Hnnzb.
  rewrite session_heap_initialized in Hinit.
  split; [exact Hinit|]. split; [exact HNb|]. split; [exact Hnnzb|].
  split.
  { intros Hi. unfold session_Nb, session_nnzb in HNb, Hnnzb.
    rewrite Hi in HNb, Hnnzb. split; assumption. }
  split; [exact Hr|]. split; [exact Hc|]. split; [exact Hv|].
  eexists. split; [now rewrite solved_heap_solves, session_heap_solves|].
  cbn [solve_call call_operator mat_nrowb mat_nnzb mat_row_offset mat_col mat_val].
  rewrite session_heap_Nb, session_heap_nnzb. repeat split; assumption.
Qed.

Lemma session_dimensions_fixed_witness :
  exists h',
    initialized (this h') = true /\
    Nb (this h') = session_Nb unit_rhs_session /\
    nnzb (this h') = session_nnzb unit_rhs_session /\
    (initialized (this unit_rhs_session) = true ->
     Nb (this h') = Nb (this unit_rhs_session) /\
     nnzb (this h') = nnzb (this unit_rhs_session)) /\
    tmp_rowpointers (this h') = None /\
    tmp_colindices (this h') = None /\
    tmp_nnzvalues (this h') = None /\
    exists call,
      solves h' = solves unit_rhs_session ++ [call] /\
      mat_nrowb (call_operator call) = session_Nb unit_rhs_session /\
      mat_nnzb (call_operator call) = session_nnzb unit_rhs_session /\
      length (mat_row_offset (call_operator call))
        = Z.to_nat (session_Nb unit_rhs_session + 1) /\
      length (mat_col (call_operator call))
        = Z.to_nat (session_nnzb unit_rhs_session) /\
      length (mat_val (call_operator call))
        = Z.to_nat (umul (umul (session_nnzb unit_rhs_session) 3) 3).
Proof.
  eexists.
  eapply (session_dimensions_fixed 3 (sample_platform 0) None no_wells
            unit_rhs_session GPU_SOLVER_SUCCESS).
  vm_compute. reflexivity.
Defined.

(** C6 (as stated) fails: after a first call on one block row with one
    block, a second call on a matrix of two block rows and three blocks
    re-allocates nothing to the new dimensions: the session still has
    [Nb = 1] and [nnzb = 1], and the arrays handed to the solver have 2, 1
    and 9 cells where the matrix at hand needs 3, 3 and 27. *)
Lemma dimensions_not_updated_counterexample :
  exists res1 h1 res2 h2 call1 call2,
    solve_system 3 (sample_platform 0) None no_wells unit_rhs_session
      = Normal (GPU_SOLVER_SUCCESS, res1, h1) /\
    solve_system 3 (sample_platform 0) None no_wells
        (assemble three_blocks six_rhs h1)
      = Normal (GPU_SOLVER_SUCCESS, res2, h2) /\
    solves h2 = [call1; call2] /\
    BlockedMatrix.Nb three_blocks = 2 /\
    BlockedMatrix.nnzbs three_blocks = 3 /\
    Nb (this h2) = 1 /\
    nnzb (this h2) = 1 /\
    mat_nrowb (call_operator call2) = 1 /\
    mat_nnzb (call_operator call2) = 1 /\
    length (mat_row_offset (call_operator call2)) = 2%nat /\
    length (mat_col (call_operator call2)) = 1%nat /\
    length (mat_val (call_operator call2)) = 9%nat /\
    length (call_rhs call2) = 3%nat.
Proof.
  eexists _, _, _, _, _, _. split; [vm_compute; reflexivity|].
  split; [vm_compute; reflexivity|].
  split; [vm_compute; reflexivity|].
  repeat split; vm_compute; reflexivity.
Qed.

(** ** The staged values *)

(** C10: on arrays as long as the session's dimensions say, the value
    array handed to the solver is, unless [BCSR_IND_BASE] is 0, exactly as
    [new] left it, no cell assigned; with [BCSR_IND_BASE = 0] the first nine
    cells of every block hold values copied from the caller's block. *)
Theorem values_copied_only_column_major bs P jacMatrix wellContribs h :
  well_sized bs P h ->
  exists res h' call,
    solve_system bs P jacMatrix wellContribs h
      = Normal (GPU_SOLVER_SUCCESS, res, h') /\
    solves h' = solves h ++ [call] /\
    (BCSR_IND_BASE P <> 0 ->
     mat_val (call_operator call)
       = new_cells (umul (umul (session_nnzb h) bs) bs)) /\
    (BCSR_IND_BASE P = 0 ->
     forall q k, 0 <= q < session_nnzb h -> 0 <= k < 9 ->
       exists v,
         subscript (BlockedMatrix.nnzValues (matrix h))
                   (q * bs * bs + source_offset k) = Some v /\
         subscript (mat_val (call_operator call)) (q * bs * bs + k)
           = Some (Some v)).
Proof.
  intros W.
  destruct (solve_system_ok bs P jacMatrix wellContribs h W) as (vals & Hst & E).
  cbv zeta in E. eexists _, _, _. split; [exact E|].
  split; [now rewrite solved_heap_solves, session_heap_solves|].
  cbn [solve_call call_operator mat_val]. unfold staged_values in Hst. split.
  - intros Hbase. apply Z.eqb_neq in Hbase. now rewrite Hbase in Hst.
  - intros Hbase q k Hq Hk. rewrite Hbase in Hst. cbn in Hst.
    destruct Hst as (_ & Hin & _).
    destruct (ws_nnzValues _ _ _ W Hbase) as (Hbs & _ & Hlen).
    pose proof (source_offset_range k Hk) as Hs.
    pose proof (block_start_mono bs q (session_nnzb h) Hbs ltac:(lia) ltac:(lia)).
    assert (0 <= q * bs * bs) by nia.
    destruct (subscript_is_Some (BlockedMatrix.nnzValues (matrix h))
                (q * bs * bs + source_offset k)) as [v Hv]; [lia|].
    exists v. split; [exact Hv|]. rewrite (Hin q k Hq Hk), Hv. reflexivity.
Qed.

Lemma values_copied_only_column_major_witness :
  exists res h' call,
    solve_system 3 (sample_platform 1) None no_wells unit_rhs_session
      = Normal (GPU_SOLVER_SUCCESS, res, h') /\
    solves h' = solves unit_rhs_session ++ [call] /\
    (BCSR_IND_BASE (sample_platform 1) <> 0 ->
     mat_val (call_operator call)
       = new_cells (umul (umul (session_nnzb unit_rhs_session) 3) 3)) /\
    (BCSR_IND_BASE (sample_platform 1) = 0 ->
     forall q k, 0 <= q < session_nnzb unit_rhs_session -> 0 <= k < 9 ->
       exists v,
         subscript (BlockedMatrix.nnzValues (matrix unit_rhs_session))
                   (q * 3 * 3 + source_offset k) = Some v /\
         subscript (mat_val (call_operator call)) (q * 3 * 3 + k)
           = Some (Some v)).
Proof.
  apply (values_copied_only_column_major 3 (sample_platform 1) None no_wells
           unit_rhs_session).
  well_sized_sample.
Defined.

(** ** Block sizes other than 3 *)

(** For 3x3 blocks under the column-major convention the solver is handed
    the caller's values with every block transposed, and the row pointers
    and column indices as they are. *)
Theorem blocks_3x3_transposed P jacMatrix wellContribs h :
  well_sized 3 P h -> BCSR_IND_BASE P = 0 ->
  exists res h' call,
    solve_system 3 P jacMatrix wellContribs h
      = Normal (GPU_SOLVER_SUCCESS, res, h') /\
    solves h' = solves h ++ [call] /\
    mat_val (call_operator call)
      = transpose_blocks 3 (session_nnzb h * 9)
          (BlockedMatrix.nnzValues (matrix h)) /\
    mat_row_offset (call_operator call)
      = Some <$> take (Z.to_nat (session_Nb h + 1))
                   (BlockedMatrix.rowPointers (matrix h)) /\
    mat_col (call_operator call)
      = Some <$> take (Z.to_nat (session_nnzb h))
                   (BlockedMatrix.colIndices (matrix h)).
Proof.
  intros W Hbase.
  destruct (solve_system_ok 3 P jacMatrix wellContribs h W) as (vals & Hst & E).
  cbv zeta in E. eexists _, _, _. split; [exact E|].
  split; [now rewrite solved_heap_solves, session_heap_solves|].
  cbn [solve_call call_operator mat_val mat_row_offset mat_col].
  split; [|split; reflexivity].
  rewrite Hbase in Hst.
  destruct (ws_nnzValues _ _ _ W Hbase) as (_ & _ & Hlen).
  pose proof (ws_nnzb _ _ _ W).
  apply staged_values_3x3; [lia | lia | exact Hst].
Qed.

(** C2: the claim fails for blocks that are not 3x3.  For one 4x4 block
    holding 0 .. 15 the value loop assigns nine of the sixteen cells, from
    the offsets of the 3x3 transposition, and leaves seven as [new] left
    them; the transposed block is another array. *)
Theorem block_size_4_not_transposed :
  exists res h' call,
    solve_system 4 (sample_platform 0) None no_wells block_4_session
      = Normal (GPU_SOLVER_SUCCESS, res, h') /\
    solves h' = [call] /\
    mat_val (call_operator call)
      = [Some 0; Some 3; Some 6; Some 1; Some 4; Some 7; Some 2; Some 5; Some 8;
         None; None; None; None; None; None; None]%float /\
    transpose_blocks 4 16 (BlockedMatrix.nnzValues one_block_4)
      = Some <$> [0; 4; 8; 12; 1; 5; 9; 13; 2; 6; 10; 14; 3; 7; 11; 15]%float.
Proof.
  eexists _, _, _. split; [vm_compute; reflexivity|].
  repeat split; vm_compute; reflexivity.
Qed.

(** C3: the claim fails for block sizes 1 and 2.  On one block of either
    size the value loop reads the caller's values at offset 6, past the one
    or four there are: the conversion is undefined, in [convert_matrix] and
    so in [solve_system], and no values come back. *)
Theorem block_sizes_1_2_undefined :
  convert_matrix 2 (sample_platform 0)
      (allocated_heap 2 (session_heap 2 block_2_session)) = Undefined /\
  solve_system 2 (sample_platform 0) None no_wells block_2_session = Undefined /\
  convert_matrix 1 (sample_platform 0)
      (allocated_heap 1 (session_heap 1 block_1_session)) = Undefined /\
  solve_system 1 (sample_platform 0) None no_wells block_1_session = Undefined /\
  subscript (BlockedMatrix.nnzValues one_block_2) (block_offset 2 0 6) = None /\
  transpose_blocks 2 4 (BlockedMatrix.nnzValues one_block_2)
    = Some <$> [1; 3; 2; 4]%float.
Proof. repeat split; vm_compute; reflexivity. Qed.

(** For 3x3 blocks the round trip holds: when the values of a second
    matrix are the cells staged from a first, the cells staged from the
    second are the values of the first. *)
Theorem round_trip_3x3 P jacMatrix wellContribs h h2 :
  well_sized 3 P h -> well_sized 3 P h2 -> BCSR_IND_BASE P = 0 ->
  session_nnzb h2 = session_nnzb h ->
  Z.of_nat (length (BlockedMatrix.nnzValues (matrix h))) = session_nnzb h * 9 ->
  transpose_blocks 3 (session_nnzb h * 9) (BlockedMatrix.nnzValues (matrix h))
    = Some <$> BlockedMatrix.nnzValues (matrix h2) ->
  exists res h' call,
    solve_system 3 P jacMatrix wellContribs h2
      = Normal (GPU_SOLVER_SUCCESS, res, h') /\
    solves h' = solves h2 ++ [call] /\
    mat_val (call_operator call) = Some <$> BlockedMatrix.nnzValues (matrix h).
Proof.
  intros W W2 Hbase Hn Hlen Hfirst.
  destruct (blocks_3x3_transposed P jacMatrix wellContribs h2 W2 Hbase)
    as (res2 & h2' & call2 & E2 & Hs2 & Hval2 & _).
  exists res2, h2', call2. split; [exact E2|]. split; [exact Hs2|].
  rewrite Hval2, Hn.
  apply transpose_blocks_3_round_trip;
    [apply (ws_nnzb _ _ _ W) | exact Hlen | exact Hfirst].
Qed.

(** * Further properties of the backend *)

(** ** What the solver is given *)

(** X1: a solve call that returns has handed the solver the first
    [Nb * block_size] entries of [b], all of them there, as right-hand
    side, a zero vector of that length as initial guess, the iteration
    control the session holds, which the call leaves as it is, and a square
    operator of [Nb] block rows with blocks of [block_size].  Where the
    session holds the control the constructor set from [maxit] and
    [tolerance], as it does from the constructor on, the solver is run with
    absolute tolerance 1e-15, relative tolerance [tolerance], divergence
    tolerance 1e3 and at most [maxit] iterations. *)
Theorem solver_input bs P jacMatrix wellContribs h st res h' :
  solve_system bs P jacMatrix wellContribs h = Normal (st, res, h') ->
  exists call,
    solves h' = solves h ++ [call] /\
    call_rhs call = take (Z.to_nat (session_Nb h * bs)) (b h) /\
    length (call_rhs call) = Z.to_nat (session_Nb h * bs) /\
    call_x0 call = replicate (Z.to_nat (session_Nb h * bs)) 0%float /\
    call_control call = roc_solver (this h) /\
    roc_solver (this h') = roc_solver (this h) /\
    (forall verbosity_ maxit_ tolerance_,
       roc_solver (this h)
         = roc_solver (rocalutionSolverBackend verbosity_ maxit_ tolerance_) ->
       call_control call
         = {| abs_tol := 0x1.203af9ee75616p-50; rel_tol := tolerance_;
              divergence_tol := 1e3; max_iter := maxit_ |}) /\
    mat_nrowb (call_operator call) = session_Nb h /\
    mat_ncolb (call_operator call) = session_Nb h /\
    mat_nnzb (call_operator call) = session_nnzb h /\
    mat_blockdim (call_operator call) = bs.
Proof.
  intros E. pose proof (solve_system_inv_sizes _ _ _ _ _ _ _ _ E) as (_ & Hb & _).
  apply solve_system_inv in E as (rp & ci & vals & _ & _ & _ & _ & _ & ->).
  eexists. split; [now rewrite solved_heap_solves, session_heap_solves|].
  destruct (solved_heap_members P (solve_call bs (session_heap bs h) rp ci vals)
              (session_heap bs h)) as (_ & _ & -> & _).
  cbn [solve_call call_rhs call_x0 call_control call_operator
       mat_nrowb mat_ncolb mat_nnzb mat_blockdim].
  rewrite session_heap_Nb, session_heap_nnzb, session_heap_b, session_heap_control.
  repeat split.
  - rewrite length_take. lia.
  - intros v m t ->. reflexivity.
Qed.

Lemma solver_input_witness :
  exists h' call,
    solves h' = solves unit_rhs_session ++ [call] /\
    call_rhs call = take (Z.to_nat (session_Nb unit_rhs_session * 3)) (b unit_rhs_session) /\
    length (call_rhs call) = Z.to_nat (session_Nb unit_rhs_session * 3) /\
    call_x0 call = replicate (Z.to_nat (session_Nb unit_rhs_session * 3)) 0%float /\
    call_control call = roc_solver (this unit_rhs_session) /\
    roc_solver (this h') = roc_solver (this unit_rhs_session) /\
    (forall verbosity_ maxit_ tolerance_,
       roc_solver (this unit_rhs_session)
         = roc_solver (rocalutionSolverBackend verbosity_ maxit_ tolerance_) ->
       call_control call
         = {| abs_tol := 0x1.203af9ee75616p-50; rel_tol := tolerance_;
              divergence_tol := 1e3; max_iter := maxit_ |}) /\
    mat_nrowb (call_operator call) = session_Nb unit_rhs_session /\
    mat_ncolb (call_operator call) = session_Nb unit_rhs_session /\
    mat_nnzb (call_operator call) = session_nnzb unit_rhs_session /\
    mat_blockdim (call_operator call) = 3.
Proof.
  eexists.
  eapply (solver_input 3 (sample_platform 0) None no_wells unit_rhs_session
            GPU_SOLVER_SUCCESS).
  vm_compute. reflexivity.
Defined.

(** ** The log of a solve call *)

(** X2: a solve call that returns adds to the log, in this order and
    nothing else: the initialisation message if the session was not
    initialised, the conversion message if the verbosity is at least 3, the
    summary of the solve if it is at least 1. *)
Theorem solve_log bs P jacMatrix wellContribs h st res h' :
  solve_system bs P jacMatrix wellContribs h = Normal (st, res, h') ->
  OpmLog h' = OpmLog h ++ solve_messages h res.
Proof.
  intros E.
  apply solve_system_inv in E as (rp & ci & vals & _ & _ & _ & _ & -> & ->).
  rewrite solved_heap_OpmLog, session_heap_OpmLog, session_heap_verbosity,
    session_heap_solves.
  unfold solve_messages. now rewrite <- app_assoc.
Qed.

Lemma solve_log_witness :
  exists res h',
    solve_system 3 (sample_platform 0) None no_wells unit_rhs_session
      = Normal (GPU_SOLVER_SUCCESS, res, h') /\
    OpmLog h' = OpmLog unit_rhs_session ++ solve_messages unit_rhs_session res.
Proof.
  eexists _, _. split.
  - vm_compute. reflexivity.
  - eapply (solve_log 3 (sample_platform 0) None no_wells unit_rhs_session
              GPU_SOLVER_SUCCESS).
    vm_compute. reflexivity.
Defined.

(** ** The members kept between calls *)

(** X3: [N], [nnz] and the size of [h_x] agree with [Nb] and [nnzb] after
    every solve call that returns, provided they did before on a session
    already initialised; where [Nb * block_size] fits an [int], [N] is that
    product and [h_x] has that many entries. *)
Theorem members_coherent bs P jacMatrix wellContribs h st res h' :
  (initialized (this h) = true -> coherent bs (this h)) ->
  solve_system bs P jacMatrix wellContribs h = Normal (st, res, h') ->
  initialized (this h') = true /\
  coherent bs (this h') /\
  (0 < bs -> 0 <= session_Nb h -> session_Nb h * bs <= INT_MAX ->
   N (this h') = session_Nb h * bs /\
   Z.of_nat (length (h_x (this h'))) = session_Nb h * bs).
Proof.
  intros Hc E.
  pose proof (solve_system_inv_sizes _ _ _ _ _ _ _ _ E) as (_ & _ & Hx).
  apply solve_system_inv in E as (rp & ci & vals & _ & _ & _ & _ & _ & ->).
  pose proof (session_heap_coherent bs h Hc) as [HN Hnnz Hlen].
  set (call := solve_call bs (session_heap bs h) rp ci vals).
  destruct (solved_heap_this P call (session_heap bs h))
    as (HNb' & Hnnzb' & Hinit' & _).
  destruct (solved_heap_members P call (session_heap bs h))
    as (HN' & Hnnz' & _ & _ & Hx').
  assert (Hsame : length (h_x (this (solved_heap P call (session_heap bs h))))
                  = length (h_x (this (session_heap bs h)))).
  { rewrite Hx', length_app, length_drop, length_resize.
    unfold call, GetN. cbn [solve_call call_operator mat_ncolb mat_blockdim].
    rewrite session_heap_Nb. lia. }
  assert (Hco : coherent bs (this (solved_heap P call (session_heap bs h)))).
  { split.
    - now rewrite HN', HNb'.
    - now rewrite Hnnz', Hnnzb'.
    - now rewrite Hsame, HNb'. }
  split; [now rewrite Hinit', session_heap_initialized|].
  split; [exact Hco|].
  intros Hbs HNb Hfit. destruct Hco as [HN2 _ Hlen2].
  rewrite HNb', session_heap_Nb in HN2, Hlen2.
  assert (session_Nb h * bs < UINT_MOD) by (unfold INT_MAX, UINT_MOD in *; lia).
  rewrite umul_small in HN2, Hlen2 by nia.
  rewrite to_int_small in HN2 by nia.
  split; [exact HN2|]. rewrite Hlen2. nia.
Qed.

Lemma members_coherent_witness :
  exists h',
    initialized (this h') = true /\
    coherent 3 (this h') /\
    (0 < 3 -> 0 <= session_Nb unit_rhs_session ->
     session_Nb unit_rhs_session * 3 <= INT_MAX ->
     N (this h') = session_Nb unit_rhs_session * 3 /\
     Z.of_nat (length (h_x (this h'))) = session_Nb unit_rhs_session * 3).
Proof.
  eexists.
  eapply (members_coherent 3 (sample_platform 0) None no_wells unit_rhs_session
            GPU_SOLVER_SUCCESS).
  - intros [=].
  - vm_compute. reflexivity.
Defined.

(** ** Fetching the solution *)




(** ** Exactly when a solve call returns, row-major *)

(** X6: where the library takes row-major blocks ([BCSR_IND_BASE] not 0),
    for dimensions that are not negative and sizes [Nb * block_size] and
    [nnzb * block_size^2] that fit 32 bits, a solve call returns exactly
    when [Nb + 1] is an [int], [rowPointers] holds [Nb + 1] entries,
    [colIndices] holds [nnzb], [b] holds [Nb * block_size] and so does
    [h_x] once [initialize] has run; [nnzValues] may hold anything, or
    nothing.  (Storage is taken to be granted and the library to return.) *)
Theorem row_major_returns_iff bs P jacMatrix wellContribs h :
  BCSR_IND_BASE P <> 0 ->
  0 < bs -> 0 <= session_Nb h -> 0 <= session_nnzb h ->
  session_Nb h * bs < UINT_MOD -> session_nnzb h * bs * bs < UINT_MOD ->
  (exists res h',
     solve_system bs P jacMatrix wellContribs h = Normal (GPU_SOLVER_SUCCESS, res, h'))
  <->
  session_Nb h < INT_MAX /\
  session_Nb h + 1 <= Z.of_nat (length (BlockedMatrix.rowPointers (matrix h))) /\
  session_nnzb h <= Z.of_nat (length (BlockedMatrix.colIndices (matrix h))) /\
  (Z.to_nat (session_Nb h * bs) <= length (b h))%nat /\
  (Z.to_nat (session_Nb h * bs) <= length (h_x (this (session_heap bs h))))%nat.
Proof.
  intros Hbase Hbs HNb0 Hnnzb0 _ _. rewrite solve_system_returns_iff. split.
  - intros (Hr & HNb & Hnnzb & Hc & Hb & Hx).
    apply convert_arrays_Some_iff in Hc as (Hrows & Hcols & _); [|lia|lia].
    repeat split; (lia || assumption).
  - intros (HNb & Hrows & Hcols & Hb & Hx).
    unfold INT_MAX in *. repeat split; try (lia || assumption).
    apply convert_arrays_Some_iff; [lia | lia |].
    repeat split; try assumption. intros ?; contradiction.
Qed.

Lemma row_major_returns_iff_witness :
  (exists res h',
     solve_system 3 (sample_platform 1) None no_wells unit_rhs_session
       = Normal (GPU_SOLVER_SUCCESS, res, h'))
  <->
  session_Nb unit_rhs_session < INT_MAX /\
  session_Nb unit_rhs_session + 1
    <= Z.of_nat (length (BlockedMatrix.rowPointers (matrix unit_rhs_session))) /\
  session_nnzb unit_rhs_session
    <= Z.of_nat (length (BlockedMatrix.colIndices (matrix unit_rhs_session))) /\
  (Z.to_nat (session_Nb unit_rhs_session * 3) <= length (b unit_rhs_session))%nat /\
  (Z.to_nat (session_Nb unit_rhs_session * 3)
     <= length (h_x (this (session_heap 3 unit_rhs_session))))%nat.
Proof.
  apply (row_major_returns_iff 3 (sample_platform 1) None no_wells unit_rhs_session);
    cbn; unfold UINT_MOD; lia.
Defined.

(** ** Arrays shorter than the dimensions *)



(** ** Blocks smaller than 3x3 *)



(** ** Blocks larger than 3x3 *)

Lemma subscript_fresh_cell {A : Type} n j :
  0 <= j < n -> subscript (@new_cells A n) j = Some None.
Proof.
  intros Hj. rewrite subscript_lookup by lia. unfold new_cells.
  apply lookup_replicate_2. lia.
Qed.

(** X9: under the column-major convention, on arrays as long as the
    dimensions say, every cell at an offset from 9 on inside a block reaches
    the solver as [new] left it: for blocks of 4x4 and more, [block_size^2 -
    9] cells of every block are never assigned. *)
Theorem large_blocks_unassigned bs P jacMatrix wellContribs h :
  well_sized bs P h -> BCSR_IND_BASE P = 0 ->
  exists res h' call,
    solve_system bs P jacMatrix wellContribs h
      = Normal (GPU_SOLVER_SUCCESS, res, h') /\
    solves h' = solves h ++ [call] /\
    forall q r, 0 <= q < session_nnzb h -> 9 <= r < bs * bs ->
      subscript (mat_val (call_operator call)) (q * bs * bs + r) = Some None.
Proof.
  intros W Hbase.
  destruct (solve_system_ok bs P jacMatrix wellContribs h W) as (vals & Hst & E).
  cbv zeta in E. eexists _, _, _. split; [exact E|].
  split; [now rewrite solved_heap_solves, session_heap_solves|].
  cbn [solve_call call_operator mat_val]. unfold staged_values in Hst.
  rewrite Hbase in Hst. cbn in Hst. destruct Hst as (_ & _ & Hout).
  destruct (ws_nnzValues _ _ _ W Hbase) as (Hbs & _ & _).
  intros q r Hq Hr.
  assert (Hstart : forall q', q' * bs * bs = q' * (bs * bs)) by (intros; ring).
  rewrite Hout.
  - apply subscript_fresh_cell. rewrite !Hstart. nia.
  - rewrite Hstart. nia.
  - intros q' k Hq' Hk. rewrite !Hstart.
    destruct (Z.lt_trichotomy q' q) as [Hlt | [-> | Hgt]]; nia.
Qed.

Lemma large_blocks_unassigned_witness :
  exists res h' call,
    solve_system 4 (sample_platform 0) None no_wells block_4_session
      = Normal (GPU_SOLVER_SUCCESS, res, h') /\
    solves h' = solves block_4_session ++ [call] /\
    forall q r, 0 <= q < session_nnzb block_4_session -> 9 <= r < 4 * 4 ->
      subscript (mat_val (call_operator call)) (q * 4 * 4 + r) = Some None.
Proof.
  apply (large_blocks_unassigned 4 (sample_platform 0) None no_wells block_4_session).
  - well_sized_sample.
  - reflexivity.
Defined.

(** ** A matrix without blocks *)

Lemma convert_arrays_no_blocks bs base m Nb :
  0 <= Nb + 1 ->
  Nb + 1 <= Z.of_nat (length (BlockedMatrix.rowPointers m)) ->
  convert_arrays bs base m Nb 0 (new_cells (Nb + 1)) (new_cells 0)
    (new_cells (umul (umul 0 bs) bs))
  = Some (Some <$> take (Z.to_nat (Nb + 1)) (BlockedMatrix.rowPointers m), [], []).
Proof.
  intros HNb Hrows. unfold convert_arrays. rewrite !Z.sub_0_r.
  rewrite (copy_loop_fresh (BlockedMatrix.rowPointers m) (Nb + 1)) by lia.
  cbn [mbind option_bind]. change (umul (umul 0 bs) bs) with 0.
  destruct (base =? 0); reflexivity.
Qed.

(** X10: a matrix without blocks ([nnzb = 0]) is solved for every block
    size under either convention, blocks of 1x1 and 2x2 included: with
    [Nb] not negative, [Nb + 1] an [int] and [Nb * block_size] within 32
    bits, [Nb + 1] row pointers and [Nb * block_size] entries in [b] and
    [h_x], the call returns, having handed the solver the row pointers and
    empty arrays of column indices and values.  (Storage is taken to be
    granted and the library to return.) *)
Theorem no_blocks_returns bs P jacMatrix wellContribs h :
  session_nnzb h = 0 ->
  0 < bs -> 0 <= session_Nb h < INT_MAX -> session_Nb h * bs < UINT_MOD ->
  session_Nb h + 1 <= Z.of_nat (length (BlockedMatrix.rowPointers (matrix h))) ->
  (Z.to_nat (session_Nb h * bs) <= length (b h))%nat ->
  (Z.to_nat (session_Nb h * bs) <= length (h_x (this (session_heap bs h))))%nat ->
  exists res h' call,
    solve_system bs P jacMatrix wellContribs h
      = Normal (GPU_SOLVER_SUCCESS, res, h') /\
    solves h' = solves h ++ [call] /\
    mat_nrowb (call_operator call) = session_Nb h /\
    mat_nnzb (call_operator call) = 0 /\
    mat_row_offset (call_operator call)
      = Some <$> take (Z.to_nat (session_Nb h + 1))
                   (BlockedMatrix.rowPointers (matrix h)) /\
    mat_col (call_operator call) = [] /\
    mat_val (call_operator call) = [].
Proof.
  intros Hnnzb _ HNb _ Hrows Hb Hx.
  pose proof (convert_arrays_no_blocks bs (BCSR_IND_BASE P) (matrix h)
                (session_Nb h) ltac:(lia) Hrows) as Hc.
  rewrite <- Hnnzb in Hc at 1 2 3.
  eexists _, _, _. split.
  - apply (solve_system_returns bs P jacMatrix wellContribs h
             (Some <$> take (Z.to_nat (session_Nb h + 1))
                         (BlockedMatrix.rowPointers (matrix h))) [] []);
      [apply int_range_spec; unfold INT_MAX in *; lia | lia | lia
      | exact Hc | exact Hb | exact Hx].
  - split; [now rewrite solved_heap_solves, session_heap_solves|].
    cbn [solve_call call_operator mat_nrowb mat_nnzb mat_row_offset mat_col mat_val].
    rewrite session_heap_Nb, session_heap_nnzb. repeat split. exact Hnnzb.
Qed.

Lemma no_blocks_returns_witness :
  exists res h' call,
    solve_system 1 (sample_platform 0) None no_wells no_blocks_session
      = Normal (GPU_SOLVER_SUCCESS, res, h') /\
    solves h' = solves no_blocks_session ++ [call] /\
    mat_nrowb (call_operator call) = session_Nb no_blocks_session /\
    mat_nnzb (call_operator call) = 0 /\
    mat_row_offset (call_operator call)
      = Some <$> take (Z.to_nat (session_Nb no_blocks_session + 1))
                   (BlockedMatrix.rowPointers (matrix no_blocks_session)) /\
    mat_col (call_operator call) = [] /\
    mat_val (call_operator call) = [].
Proof.
  apply (no_blocks_returns 1 (sample_platform 0) None no_wells no_blocks_session).
  - reflexivity.
  - lia.
  - cbn. unfold INT_MAX. lia.
  - cbn. unfold UINT_MOD. lia.
  - cbn. lia.
  - cbn. lia.
  - vm_compute. lia.
Defined.

(** ** Solving the same system again *)

(** X11: when a solve call has returned, a second call on the same matrix
    and right-hand side returns too, after exactly one more call of the
    solver, on the same right-hand side, initial guess, iteration control
    and dimensions, the caller's row pointers and column indices both
    times, a value array of the same length, and the same value in every
    cell of it the first call assigned: the first call leaves nothing
    behind that the second would pick up.  What the solver reports the
    second time, and the time it takes, are not part of this. *)
Theorem solve_repeatable bs P jacMatrix wellContribs h st res h1 :
  solve_system bs P jacMatrix wellContribs h = Normal (st, res, h1) ->
  exists res2 h2 call1 call2,
    solve_system bs P jacMatrix wellContribs h1
      = Normal (GPU_SOLVER_SUCCESS, res2, h2) /\
    solves h1 = solves h ++ [call1] /\
    solves h2 = solves h ++ [call1; call2] /\
    call_rhs call2 = call_rhs call1 /\
    call_x0 call2 = call_x0 call1 /\
    call_control call2 = call_control call1 /\
    mat_nrowb (call_operator call2) = mat_nrowb (call_operator call1) /\
    mat_ncolb (call_operator call2) = mat_ncolb (call_operator call1) /\
    mat_nnzb (call_operator call2) = mat_nnzb (call_operator call1) /\
    mat_blockdim (call_operator call2) = mat_blockdim (call_operator call1) /\
    mat_row_offset (call_operator call1)
      = Some <$> take (Z.to_nat (session_Nb h + 1))
                   (BlockedMatrix.rowPointers (matrix h)) /\
    mat_row_offset (call_operator call2) = mat_row_offset (call_operator call1) /\
    mat_col (call_operator call1)
      = Some <$> take (Z.to_nat (session_nnzb h))
                   (BlockedMatrix.colIndices (matrix h)) /\
    mat_col (call_operator call2) = mat_col (call_operator call1) /\
    length (mat_val (call_operator call2))
      = length (mat_val (call_operator call1)) /\
    (forall j v,
       subscript (mat_val (call_operator call1)) j = Some (Some v) ->
       subscript (mat_val (call_operator call2)) j = Some (Some v)).
Proof.
  intros E.
  pose proof (solve_system_inv_sizes _ _ _ _ _ _ _ _ E) as (Hr & Hb & Hx).
  apply solve_system_inv in E as (rp & ci & vals & Hc & HNb & Hnnzb & -> & -> & ->).
  set (hs := session_heap bs h) in *.
  set (call := solve_call bs hs rp ci vals).
  destruct (solved_heap_this P call hs) as (HNb1 & Hnnzb1 & Hinit1 & _).
  destruct (solved_heap_members P call hs) as (_ & _ & Hctl1 & _ & Hx1).
  set (h1 := solved_heap P call hs) in *.
  assert (Hinit : initialized (this h1) = true)
    by (rewrite Hinit1; apply session_heap_initialized).
  assert (Hs1 : session_heap bs h1 = h1) by (unfold session_heap; now rewrite Hinit).
  assert (HsNb : session_Nb h1 = session_Nb h).
  { unfold session_Nb at 1. rewrite Hinit, HNb1. apply session_heap_Nb. }
  assert (Hsnnzb : session_nnzb h1 = session_nnzb h).
  { unfold session_nnzb at 1. rewrite Hinit, Hnnzb1. apply session_heap_nnzb. }
  assert (Hm : matrix h1 = matrix h)
    by (unfold h1; rewrite solved_heap_matrix; apply session_heap_matrix).
  assert (Hb1 : b h1 = b h)
    by (unfold h1; rewrite solved_heap_b; apply session_heap_b).
  assert (Hcall : solve_call bs h1 rp ci vals = call).
  { unfold call, solve_call. rewrite HNb1, Hnnzb1, Hctl1.
    unfold h1. now rewrite solved_heap_b. }
  assert (HN : GetN (call_operator call) = session_Nb h * bs).
  { unfold call, GetN. cbn [solve_call call_operator mat_ncolb mat_blockdim].
    unfold hs. now rewrite session_heap_Nb. }
  destruct (convert_arrays_Some_verbatim _ _ _ _ _ _ _ _ HNb Hnnzb Hc) as (Hrp & Hci).
  eexists _, (solved_heap P call h1), call, call. split; [|split; [|split]].
  - rewrite (solve_system_returns bs P jacMatrix wellContribs h1 rp ci vals).
    + rewrite Hs1, Hcall. reflexivity.
    + now rewrite HsNb.
    + now rewrite HsNb.
    + now rewrite Hsnnzb.
    + now rewrite HsNb, Hsnnzb, Hm.
    + now rewrite HsNb, Hb1.
    + rewrite HsNb, Hs1, Hx1, HN, length_app, length_drop, length_resize. lia.
  - unfold h1, hs. now rewrite solved_heap_solves, session_heap_solves.
  - rewrite solved_heap_solves. unfold h1, hs.
    rewrite solved_heap_solves, session_heap_solves, <- app_assoc. reflexivity.
  - unfold call at 7 9. cbn [solve_call call_operator mat_row_offset mat_col].
    repeat split; auto.
Qed.

Lemma solve_repeatable_witness :
  exists res h1 res2 h2 call1 call2,
    solve_system 3 (sample_platform 0) None no_wells unit_rhs_session
      = Normal (GPU_SOLVER_SUCCESS, res, h1) /\
    solve_system 3 (sample_platform 0) None no_wells h1
      = Normal (GPU_SOLVER_SUCCESS, res2, h2) /\
    solves h1 = solves unit_rhs_session ++ [call1] /\
    solves h2 = solves unit_rhs_session ++ [call1; call2] /\
    call_rhs call2 = call_rhs call1 /\
    mat_row_offset (call_operator call2) = mat_row_offset (call_operator call1) /\
    mat_col (call_operator call2) = mat_col (call_operator call1) /\
    (forall j v,
       subscript (mat_val (call_operator call1)) j = Some (Some v) ->
       subscript (mat_val (call_operator call2)) j = Some (Some v)).
Proof.
  eexists _, _.
  assert (E : solve_system 3 (sample_platform 0) None no_wells unit_rhs_session
              = Normal (GPU_SOLVER_SUCCESS, _, _)) by (vm_compute; reflexivity).
  destruct (solve_repeatable 3 (sample_platform 0) None no_wells unit_rhs_session
              _ _ _ E)
    as (res2 & h2 & call1 & call2 & E2 & Hs1 & Hs2 & Hrhs & _ & _ & _ & _ & _ & _
        & _ & Hrp & _ & Hci & _ & Hv).
  exists res2, h2, call1, call2. split; [exact E|]. split; [exact E2|].
  repeat split; assumption.
Defined.

(** ** Exactly when a solve call returns, column-major 3x3 *)

Lemma value_loop_3x3_iff (src : list Scalar) nnzb :
  0 <= nnzb -> nnzb * 9 < UINT_MOD ->
  is_Some (iterate_cells (Z.to_nat (nnzb - 0)) 0 (copy_block 3 src)
             (new_cells (umul (umul nnzb 3) 3)))
  <-> nnzb * 9 <= Z.of_nat (length src).
Proof.
  intros Hn Hwrap. rewrite Z.sub_0_r.
  assert (Hsize : umul (umul nnzb 3) 3 = nnzb * 9).
  { rewrite (umul_small nnzb 3) by lia. rewrite umul_small by lia. lia. }
  rewrite Hsize. split.
  - intros [vals Hvals].
    destruct (decide (nnzb = 0)) as [->|Hpos]; [lia|].
    destruct (iterate_copy_block_Some_inv _ _ _ _ _ _ Hvals (nnzb - 1))
      as (_ & [v Hv]); [lia|].
    rewrite block_offset_small in Hv by lia.
    destruct (Z.le_gt_cases (Z.of_nat (length src)) ((nnzb - 1) * 3 * 3 + 8))
      as [Hshort|?]; [|lia].
    rewrite subscript_beyond in Hv by lia. discriminate.
  - intros Hlen.
    destruct (iterate_copy_block 3 src (Z.to_nat nnzb) 0 (new_cells (nnzb * 9)))
      as (vals & -> & _); rewrite ?new_cells_length; try lia.
    eauto.
Qed.

(** X12: where the library takes column-major blocks ([BCSR_IND_BASE = 0])
    and blocks are 3x3, for dimensions that are not negative and sizes
    [3 * Nb] and [9 * nnzb] that fit 32 bits, a solve call returns exactly
    when [Nb + 1] is an [int], [rowPointers] holds [Nb + 1] entries,
    [colIndices] holds [nnzb], [nnzValues] holds [9 * nnzb], [b] holds
    [3 * Nb] and so does [h_x] once [initialize] has run.  (Storage is
    taken to be granted and the library to return.) *)
Theorem column_major_3x3_returns_iff P jacMatrix wellContribs h :
  BCSR_IND_BASE P = 0 ->
  0 <= session_Nb h -> 0 <= session_nnzb h ->
  session_Nb h * 3 < UINT_MOD -> session_nnzb h * 9 < UINT_MOD ->
  (exists res h',
     solve_system 3 P jacMatrix wellContribs h = Normal (GPU_SOLVER_SUCCESS, res, h'))
  <->
  session_Nb h < INT_MAX /\
  session_Nb h + 1 <= Z.of_nat (length (BlockedMatrix.rowPointers (matrix h))) /\
  session_nnzb h <= Z.of_nat (length (BlockedMatrix.colIndices (matrix h))) /\
  session_nnzb h * 9 <= Z.of_nat (length (BlockedMatrix.nnzValues (matrix h))) /\
  (Z.to_nat (session_Nb h * 3) <= length (b h))%nat /\
  (Z.to_nat (session_Nb h * 3) <= length (h_x (this (session_heap 3 h))))%nat.
Proof.
  intros Hbase HNb0 Hnnzb0 _ Hwrap. rewrite solve_system_returns_iff. split.
  - intros (Hr & HNb & Hnnzb & Hc & Hb & Hx).
    apply convert_arrays_Some_iff in Hc as (Hrows & Hcols & Hv); [|lia|lia].
    specialize (Hv Hbase). apply value_loop_3x3_iff in Hv; [|lia|lia].
    repeat split; (lia || assumption).
  - intros (HNb & Hrows & Hcols & Hvals & Hb & Hx).
    unfold INT_MAX in *. repeat split; try (lia || assumption).
    apply convert_arrays_Some_iff; [lia | lia |].
    repeat split; try assumption. intros _.
    apply value_loop_3x3_iff; assumption.
Qed.

Lemma column_major_3x3_returns_iff_witness :
  (exists res h',
     solve_system 3 (sample_platform 0) None no_wells unit_rhs_session
       = Normal (GPU_SOLVER_SUCCESS, res, h'))
  <->
  session_Nb unit_rhs_session < INT_MAX /\
  session_Nb unit_rhs_session + 1
    <= Z.of_nat (length (BlockedMatrix.rowPointers (matrix unit_rhs_session))) /\
  session_nnzb unit_rhs_session
    <= Z.of_nat (length (BlockedMatrix.colIndices (matrix unit_rhs_session))) /\
  session_nnzb unit_rhs_session * 9
    <= Z.of_nat (length (BlockedMatrix.nnzValues (matrix unit_rhs_session))) /\
  (Z.to_nat (session_Nb unit_rhs_session * 3) <= length (b unit_rhs_session))%nat /\
  (Z.to_nat (session_Nb unit_rhs_session * 3)
     <= length (h_x (this (session_heap 3 unit_rhs_session))))%nat.
Proof.
  apply (column_major_3x3_returns_iff (sample_platform 0) None no_wells
           unit_rhs_session); cbn; unfold UINT_MOD; lia.
Defined.

(** ** 3x3 blocks, entry by entry *)

(** X13: under the column-major convention, on arrays as long as the
    dimensions say, the entry at row [r] and column [c] of every 3x3 block
    of the caller's matrix (offset [3 r + c] in its block) reaches the
    solver at offset [3 c + r] of the same block: each block is handed over
    transposed. *)
Theorem blocks_3x3_entrywise P jacMatrix wellContribs h :
  well_sized 3 P h -> BCSR_IND_BASE P = 0 ->
  exists res h' call,
    solve_system 3 P jacMatrix wellContribs h
      = Normal (GPU_SOLVER_SUCCESS, res, h') /\
    solves h' = solves h ++ [call] /\
    forall q r c, 0 <= q < session_nnzb h -> 0 <= r < 3 -> 0 <= c < 3 ->
      exists v,
        subscript (BlockedMatrix.nnzValues (matrix h)) (q * 9 + 3 * r + c) = Some v /\
        subscript (mat_val (call_operator call)) (q * 9 + 3 * c + r) = Some (Some v).
Proof.
  intros W Hbase.
  destruct (solve_system_ok 3 P jacMatrix wellContribs h W) as (vals & Hst & E).
  cbv zeta in E. eexists _, _, _. split; [exact E|].
  split; [now rewrite solved_heap_solves, session_heap_solves|].
  cbn [solve_call call_operator mat_val]. unfold staged_values in Hst.
  rewrite Hbase in Hst. cbn in Hst. destruct Hst as (_ & Hin & _).
  destruct (ws_nnzValues _ _ _ W Hbase) as (_ & _ & Hlen).
  intros q r c Hq Hr Hc.
  destruct (subscript_is_Some (BlockedMatrix.nnzValues (matrix h)) (q * 9 + 3 * r + c))
    as [v Hv]; [lia|].
  exists v. split; [exact Hv|].
  assert (Hoff : source_offset (3 * c + r) = 3 * r + c).
  { assert (r = 0 \/ r = 1 \/ r = 2) as [-> | [-> | ->]] by lia;
      assert (c = 0 \/ c = 1 \/ c = 2) as [-> | [-> | ->]] by lia; reflexivity. }
  replace (q * 9 + 3 * c + r) with (q * 3 * 3 + (3 * c + r)) by lia.
  rewrite Hin by lia. rewrite Hoff.
  replace (q * 3 * 3 + (3 * r + c)) with (q * 9 + 3 * r + c) by lia.
  now rewrite Hv.
Qed.

Lemma blocks_3x3_entrywise_witness :
  exists res h' call,
    solve_system 3 (sample_platform 0) None no_wells unit_rhs_session
      = Normal (GPU_SOLVER_SUCCESS, res, h') /\
    solves h' = solves unit_rhs_session ++ [call] /\
    forall q r c, 0 <= q < session_nnzb unit_rhs_session -> 0 <= r < 3 -> 0 <= c < 3 ->
      exists v,
        subscript (BlockedMatrix.nnzValues (matrix unit_rhs_session))
                  (q * 9 + 3 * r + c) = Some v /\
        subscript (mat_val (call_operator call)) (q * 9 + 3 * c + r) = Some (Some v).
Proof.
  apply (blocks_3x3_entrywise (sample_platform 0) None no_wells unit_rhs_session).
  - well_sized_sample.
  - reflexivity.
Defined.

(** ** 3x3 blocks, there and back *)

Lemma all_assigned {A : Type} (a : array A) :
  Forall is_Some a -> exists l, a = Some <$> l.
Proof.
  induction 1 as [|x a [v ->] _ [l ->]].
  - exists []. reflexivity.
  - exists (v :: l). reflexivity.
Qed.

Lemma transpose_blocks_3_assigned nnzb vals :
  0 <= nnzb -> Z.of_nat (length vals) = nnzb * 9 ->
  exists v1, transpose_blocks 3 (nnzb * 9) vals = Some <$> v1.
Proof.
  intros Hn Hlen. apply all_assigned. apply Forall_lookup. intros i x Hi.
  pose proof (lookup_lt_Some _ _ _ Hi) as Hlt.
  rewrite transpose_blocks_length in Hlt.
  rewrite <- (Nat2Z.id i), <- subscript_lookup in Hi by lia.
  rewrite subscript_transpose_blocks in Hi by lia. injection Hi as <-.
  pose proof (transposed_index_3_range nnzb (Z.of_nat i) ltac:(lia)).
  destruct (subscript_is_Some vals (transposed_index 3 (Z.of_nat i))) as [v ->];
    [lia | eauto].
Qed.

(** X14: for 3x3 blocks under the column-major convention the conversion
    is its own inverse.  When a call on a matrix with exactly [9 * nnzb]
    values has returned, every cell handed to the solver is assigned, and a
    second call, on the same matrix with those cells for values, hands the
    solver the values of the first matrix. *)
Theorem conversion_round_trip_3x3 P jacMatrix wellContribs h :
  well_sized 3 P h -> BCSR_IND_BASE P = 0 ->
  Z.of_nat (length (BlockedMatrix.nnzValues (matrix h))) = session_nnzb h * 9 ->
  exists res h1 call1 v1,
    solve_system 3 P jacMatrix wellContribs h
      = Normal (GPU_SOLVER_SUCCESS, res, h1) /\
    solves h1 = solves h ++ [call1] /\
    mat_val (call_operator call1) = Some <$> v1 /\
    exists res2 h2 call2,
      solve_system 3 P jacMatrix wellContribs
          (assemble (with_values v1 (matrix h)) (b h) h1)
        = Normal (GPU_SOLVER_SUCCESS, res2, h2) /\
      solves h2 = solves h1 ++ [call2] /\
      mat_val (call_operator call2) = Some <$> BlockedMatrix.nnzValues (matrix h).
Proof.
  intros W Hbase Hlen.
  pose proof (ws_nnzb _ _ _ W) as Hnnzb.
  destruct (blocks_3x3_transposed P jacMatrix wellContribs h W Hbase)
    as (res & h1 & call1 & E & Hs & Hval & _).
  destruct (transpose_blocks_3_assigned (session_nnzb h)
              (BlockedMatrix.nnzValues (matrix h)) ltac:(lia) Hlen) as [v1 Hv1].
  exists res, h1, call1, v1. split; [exact E|]. split; [exact Hs|].
  split; [now rewrite Hval|].
  assert (Hlen1 : Z.of_nat (length v1) = session_nnzb h * 9).
  { pose proof (f_equal length Hv1) as Hl.
    rewrite transpose_blocks_length, length_fmap in Hl. lia. }
  pose proof (solve_system_inv_sizes _ _ _ _ _ _ _ _ E) as (_ & _ & Hx).
  pose proof E as E'.
  apply solve_system_inv in E' as (rp & ci & vals & _ & _ & _ & _ & _ & Hh1).
  set (call := solve_call 3 (session_heap 3 h) rp ci vals) in Hh1.
  destruct (solved_heap_this P call (session_heap 3 h)) as (HNb1 & Hnnzb1 & Hinit1 & _).
  rewrite <- Hh1, session_heap_Nb in HNb1.
  rewrite <- Hh1, session_heap_nnzb in Hnnzb1.
  rewrite <- Hh1, session_heap_initialized in Hinit1.
  assert (Hx1 : length (h_x (this h1)) = length (h_x (this (session_heap 3 h)))).
  { rewrite Hh1. apply solved_heap_h_x_length. unfold call, GetN.
    cbn [solve_call call_operator mat_ncolb mat_blockdim].
    now rewrite session_heap_Nb. }
  set (h2 := assemble (with_values v1 (matrix h)) (b h) h1).
  assert (HsNb : session_Nb h2 = session_Nb h)
    by (unfold session_Nb at 1; cbn [h2 assemble this]; now rewrite Hinit1).
  assert (Hsnnzb : session_nnzb h2 = session_nnzb h)
    by (unfold session_nnzb at 1; cbn [h2 assemble this]; now rewrite Hinit1).
  assert (W2 : well_sized 3 P h2).
  { destruct W as [W1 W2 W3 W4 W5 W6 W7 W8 W9].
    split; rewrite ?HsNb, ?Hsnnzb; try assumption.
    - intros _. destruct (W7 Hbase) as (? & ? & _).
      cbn [h2 assemble matrix with_values BlockedMatrix.nnzValues]. lia.
    - intros _. cbn [h2 assemble this]. lia. }
  destruct (blocks_3x3_transposed P jacMatrix wellContribs h2 W2 Hbase)
    as (res2 & h2' & call2 & E2 & Hs2 & Hval2 & _).
  exists res2, h2', call2. split; [exact E2|]. split; [exact Hs2|].
  rewrite Hval2, Hsnnzb.
  cbn [h2 assemble matrix with_values BlockedMatrix.nnzValues].
  apply transpose_blocks_3_round_trip; [lia | exact Hlen | exact Hv1].
Qed.

Lemma conversion_round_trip_3x3_witness :
  exists res h1 call1 v1,
    solve_system 3 (sample_platform 0) None no_wells unit_rhs_session
      = Normal (GPU_SOLVER_SUCCESS, res, h1) /\
    solves h1 = solves unit_rhs_session ++ [call1] /\
    mat_val (call_operator call1) = Some <$> v1 /\
    exists res2 h2 call2,
      solve_system 3 (sample_platform 0) None no_wells
          (assemble (with_values v1 (matrix unit_rhs_session))
             (b unit_rhs_session) h1)
        = Normal (GPU_SOLVER_SUCCESS, res2, h2) /\
      solves h2 = solves h1 ++ [call2] /\
      mat_val (call_operator call2)
        = Some <$> BlockedMatrix.nnzValues (matrix unit_rhs_session).
Proof.
  apply (conversion_round_trip_3x3 (sample_platform 0) None no_wells
           unit_rhs_session).
  - well_sized_sample.
  - reflexivity.
  - reflexivity.
Defined.
